(** * MY_KanBan: the board reconciler of [src/components/KanbanBoard.tsx]

    A shallow embedding of the client-side board logic: the per-column
    card sequences, the de-duplication pass, container resolution, the
    drag handlers, the handlers that talk to the remote store, and the
    ingestion of real-time change events.  JavaScript values are
    modelled as follows.

    - A [KanbanItem[]] is a [list]; an array that may hold [undefined]
      entries is a [list (option _)] ([None] is [undefined]).
    - Array indices are in [Z], because [findIndex] answers [-1].
    - A thrown [TypeError] is the constructor [TypeError] of [Exc].
    - [Set<string>] is a [gset string].
    - [BoardState] is an object with the four own keys [todo], [doing],
      [done], [temp], enumerated in that order; strings that reach the
      component from outside (ids of drag events, [column_key] of a
      row) stay strings until they are used as a key.
    - An async handler is a [Task]: the effects it performs, with one
      continuation per awaited reply.  The component is the transition
      system of handler invocations, replies and timers over [State]. *)

From stdpp Require Import base option list strings gmap pretty.
From Stdlib Require Import ZArith Ascii.

Set Default Proof Using "Type".

(** ** JavaScript array primitives *)

Section js_array.
Context {A : Type}.

(** [Array.prototype.find]: the first element satisfying [P]. *)
Definition find (P : A → Prop) `{∀ x, Decision (P x)} (l : list A) : option A :=
  snd <$> list_find P l.

(** [Array.prototype.findIndex]: the index of that element, or [-1]. *)
Definition findIndex (P : A → Prop) `{∀ x, Decision (P x)} (l : list A) : Z :=
  match list_find P l with
  | Some (i, _) => Z.of_nat i
  | None => (-1)%Z
  end.

(** [arr[i]] for an integer [i]: [undefined] outside [0 .. length-1]
    (a negative [i] names a property the array does not have). *)
Definition at_index (l : list A) (i : Z) : option A :=
  if (i <? 0)%Z then None else l !! Z.to_nat i.

(** The relative-index rule shared by [slice] and [splice]: a negative
    index counts from the end, and the result is clamped to
    [0 .. length]. *)
Definition clamp_index (len : nat) (i : Z) : nat :=
  if (i <? 0)%Z then Z.to_nat (Z.max (Z.of_nat len + i) 0)
  else Z.to_nat (Z.min i (Z.of_nat len)).

(** [Array.prototype.slice(start, end)]. *)
Definition slice (l : list A) (start end_ : Z) : list A :=
  let k := clamp_index (length l) start in
  let final := clamp_index (length l) end_ in
  take (final - k) (drop k l).

(** [arr.splice(start, 1)]: the removed elements (at most one) and
    the array that is left. *)
Definition splice_out (l : list A) (start : Z) : list A * list A :=
  let s := clamp_index (length l) start in
  (take 1 (drop s l), take s l ++ drop (S s) l).

(** [arr.splice(start, 0, x)]: the array after the insertion. *)
Definition splice_in (l : list A) (start : Z) (x : A) : list A :=
  let s := clamp_index (length l) start in
  take s l ++ x :: drop s l.
End js_array.

(** Modelled from the spec: [arrayMove] is imported from
    [@dnd-kit/sortable] and is not part of the sources; the spec
    (4.1, Reorder within column) describes it as splicing the element
    at [fromIndex] to [toIndex].  The definition follows the library:
    [[
      const newArray = array.slice();
      newArray.splice(to < 0 ? newArray.length + to : to, 0,
                      newArray.splice(from, 1)[0]);
      return newArray;
    ]]
    The first argument of the outer [splice] is evaluated before the
    inner [splice] shortens the array; [removed[0]] is [undefined] when
    nothing was removed, so the result may hold a hole. *)
Definition arrayMove {A} (array : list A) (from to : Z) : list (option A) :=
  let newArray := Some <$> array in
  let target := if (to <? 0)%Z then (Z.of_nat (length newArray) + to)%Z else to in
  let '(removed, rest) := splice_out newArray from in
  splice_in rest target (mjoin (head removed)).

(** ** Exceptions *)

Inductive Exc (A : Type) : Type :=
  | TypeError : Exc A
  | Ok (a : A) : Exc A.
Arguments TypeError {A}.
Arguments Ok {A} a.

Definition exc_bind {A B} (m : Exc A) (f : A → Exc B) : Exc B :=
  match m with TypeError => TypeError | Ok a => f a end.

Notation "x ←! m ; k" := (exc_bind m (λ x, k))
  (at level 20, m at level 100, k at level 200, right associativity,
   format "x  ←!  m ;  '/' k").

(** ** Data model *)

Module LinkItem.
Record t := mk { label : string; href : string }.
End LinkItem.

Module KanbanItem.
Record t := mk {
  id : string;
  title : string;
  description : option string;
  links : option (list LinkItem.t);
}.
End KanbanItem.

#[global] Instance LinkItem_eq_dec : EqDecision LinkItem.t.
Proof. solve_decision. Defined.
#[global] Instance KanbanItem_eq_dec : EqDecision KanbanItem.t.
Proof. solve_decision. Defined.

(** A link as stored in the [links] column of a row: the label may be
    missing. *)
Module RawLink.
Record t := mk { label : option string; href : string }.
End RawLink.

(** A row of [kanban_cards] as the store hands it over.  [id] is the
    row's id after [String(...)]; [description] and [column_key] are
    [None] when the column is [null]; [links] is [Some] exactly when
    [Array.isArray] holds of the stored value. *)
Module CardRow.
Record t := mk {
  id : string;
  title : string;
  description : option string;
  links : option (list RawLink.t);
  column_key : option string;
}.
End CardRow.

Inductive ColumnKey := todo | doing | done | temp.

#[global] Instance ColumnKey_eq_dec : EqDecision ColumnKey.
Proof. solve_decision. Defined.

Definition key_name (k : ColumnKey) : string :=
  match k with
  | todo => "todo" | doing => "doing" | done => "done" | temp => "temp"
  end.

(** The own property of a board that a string names, if any. *)
Definition as_key (s : string) : option ColumnKey :=
  if decide (s = "todo") then Some todo
  else if decide (s = "doing") then Some doing
  else if decide (s = "done") then Some done
  else if decide (s = "temp") then Some temp
  else None.

(** [type BoardState = Record<ColumnKey, KanbanItem[]>], polymorphic in
    the element so that arrays with holes can be written down too. *)
Record Board (A : Type) := mkBoard {
  col_todo : list A;
  col_doing : list A;
  col_done : list A;
  col_temp : list A;
}.
Arguments mkBoard {A}.
Arguments col_todo {A}.
Arguments col_doing {A}.
Arguments col_done {A}.
Arguments col_temp {A}.

Definition BoardState := Board KanbanItem.t.

Definition emptyBoard {A} : Board A := mkBoard [] [] [] [].

(** [const initialBoard = { todo: [], doing: [], done: [], temp: [] }] *)
Definition initialBoard : BoardState := emptyBoard.

(** [b[k]] for a column key [k]. *)
Definition col {A} (k : ColumnKey) (b : Board A) : list A :=
  match k with
  | todo => col_todo b | doing => col_doing b
  | done => col_done b | temp => col_temp b
  end.

(** [{ ...b, [k]: v }] and [b[k] = v] on a fresh copy. *)
Definition put {A} (k : ColumnKey) (v : list A) (b : Board A) : Board A :=
  match k with
  | todo => mkBoard v (col_doing b) (col_done b) (col_temp b)
  | doing => mkBoard (col_todo b) v (col_done b) (col_temp b)
  | done => mkBoard (col_todo b) (col_doing b) v (col_temp b)
  | temp => mkBoard (col_todo b) (col_doing b) (col_done b) v
  end.

(** [Object.keys] and [Object.entries]: own keys in creation order. *)
Definition keys : list ColumnKey := [todo; doing; done; temp].
Definition entries {A} (b : Board A) : list (ColumnKey * list A) :=
  (λ k, (k, col k b)) <$> keys.

(** [b[s]] for an arbitrary string [s] resolves to a column only when
    [s] is one of the four own keys.  For every other string the value
    read is not an array ([undefined] for an unknown name, a function or
    an object for a name inherited from [Object.prototype]), and each
    use the source makes of it (spread into an array literal, [.filter],
    [.find], [.findIndex], [.slice]) throws a [TypeError]. *)
Definition own_key (s : string) : Exc ColumnKey :=
  match as_key s with
  | Some k => Ok k
  | None => TypeError
  end.

(** The property names every plain object inherits from
    [Object.prototype]. *)
Definition inherited_names : list string :=
  ["constructor"; "__defineGetter__"; "__defineSetter__"; "hasOwnProperty";
   "__lookupGetter__"; "__lookupSetter__"; "isPrototypeOf";
   "propertyIsEnumerable"; "toString"; "valueOf"; "__proto__";
   "toLocaleString"].

(** [s in b]: true of own and of inherited property names. *)
Definition in_board (s : string) : bool :=
  bool_decide (is_Some (as_key s)) || bool_decide (s ∈ inherited_names).

(** All cards of a board, column after column, and their ids. *)
Definition cards {A} (b : Board A) : list A :=
  col_todo b ++ col_doing b ++ col_done b ++ col_temp b.
Definition ids (l : list KanbanItem.t) : list string := KanbanItem.id <$> l.
Definition all_ids (b : BoardState) : list string := ids (cards b).

(** The board invariant: no identity twice, within or across columns. *)
Definition NoDupBoard (b : BoardState) : Prop := NoDup (all_ids b).

(** ** [ensureUniqueItems] *)

(** The [filter] callback with its captured [seenIds]: an item whose id
    was seen is dropped, any other is kept and its id recorded. *)
Fixpoint filterSeen (seenIds : gset string) (items : list KanbanItem.t)
  : list KanbanItem.t * gset string :=
  match items with
  | [] => ([], seenIds)
  | item :: rest =>
      if decide (KanbanItem.id item ∈ seenIds) then filterSeen seenIds rest
      else
        let '(kept, seen') := filterSeen ({[KanbanItem.id item]} ∪ seenIds) rest in
        (item :: kept, seen')
  end.

Definition ensureUniqueItems (boardState : BoardState) : BoardState :=
  let step (acc : gset string * BoardState) (e : ColumnKey * list KanbanItem.t) :=
    let '(seenIds, cleanBoard) := acc in
    let '(colKey, items) := e in
    let '(kept, seen') := filterSeen seenIds items in
    (seen', put colKey kept cleanBoard) in
  snd (foldl step (∅, emptyBoard) (entries boardState)).

(** ** Boards with holes, and what a render makes of them *)

Definition RawBoard := Board (option KanbanItem.t).

Definition raw (b : BoardState) : RawBoard :=
  mkBoard (Some <$> col_todo b) (Some <$> col_doing b)
          (Some <$> col_done b) (Some <$> col_temp b).

(** After every [setBoard] React renders the new value: each [Column]
    evaluates [items.map(item => item.id)], which throws on an
    [undefined] entry.  Only a board without holes is ever shown. *)
Definition rendered (rb : RawBoard) : option BoardState :=
  t ← mapM (λ x, x) (col_todo rb);
  d ← mapM (λ x, x) (col_doing rb);
  n ← mapM (λ x, x) (col_done rb);
  p ← mapM (λ x, x) (col_temp rb);
  Some (mkBoard t d n p).

(** ** Records arriving from the store *)

(** [`Link ${i + 1}`] *)
Definition linkLabel (i : nat) : string := "Link " +:+ pretty (S i).

Definition toLinks (ls : list RawLink.t) : list LinkItem.t :=
  imap (λ i l, LinkItem.mk (default (linkLabel i) (RawLink.label l))
                           (RawLink.href l)) ls.

(** The [KanbanItem] built from a row, as [fetchData], [handleAdd] and
    the subscription handler all do. *)
Definition toItem (row : CardRow.t) : KanbanItem.t :=
  KanbanItem.mk (CardRow.id row) (CardRow.title row) (CardRow.description row)
                (toLinks <$> CardRow.links row).

(** [(row.column_key as ColumnKey) ?? "todo"] *)
Definition declaredColumn (row : CardRow.t) : string :=
  default "todo" (CardRow.column_key row).

(** ** Container resolution *)

Definition findContainer (board : BoardState) (id : string) : option string :=
  if in_board id then Some id
  else
    (λ e, key_name e.1) <$>
      find (λ e, is_Some (find (λ item, KanbanItem.id item = id) e.2))
           (entries board).

(** ** State updaters

    Each function below is the argument of one [setBoard] call, with
    the values its closure captured as leading parameters and [prev] as
    the last one. *)

(** The loop [for (colKey of Object.keys(newBoard)) newBoard[colKey] =
    newBoard[colKey].filter(item => item.id !== cardId)]. *)
Definition removeEverywhere (cardId : string) (b : BoardState) : BoardState :=
  foldl (λ newBoard colKey,
           put colKey (filter (λ item, KanbanItem.id item ≠ cardId) (col colKey newBoard))
               newBoard)
        b keys.

(** INSERT event. *)
Definition insertUpdater (new : CardRow.t) (prev : BoardState) : Exc BoardState :=
  colKey ←! own_key (declaredColumn new);
  Ok (ensureUniqueItems (put colKey (toItem new :: col colKey prev) prev)).

(** UPDATE event, once the marker check has let it through. *)
Definition updateUpdater (new : CardRow.t) (prev : BoardState) : Exc BoardState :=
  let newBoard := removeEverywhere (CardRow.id new) prev in
  newColKey ←! own_key (declaredColumn new);
  Ok (ensureUniqueItems
        (put newColKey (col newColKey newBoard ++ [toItem new]) newBoard)).

(** DELETE event; [old] is [String(payload.old.id)]. *)
Definition deleteEventUpdater (old : string) (prev : BoardState) : BoardState :=
  ensureUniqueItems (removeEverywhere old prev).

(** [handleAdd], on success. *)
Definition addUpdater (newColumn : ColumnKey) (newItem : KanbanItem.t)
    (prev : BoardState) : BoardState :=
  ensureUniqueItems (put newColumn (newItem :: col newColumn prev) prev).

(** [handleDelete], on success. *)
Definition deleteUpdater (c : ColumnKey) (id : string) (prev : BoardState) : BoardState :=
  ensureUniqueItems
    (put c (filter (λ i, KanbanItem.id i ≠ id) (col c prev)) prev).

(** [{ ...i, ...updated }]: the one caller, [handleSave], passes an
    object literal that carries all four keys, so every field of [i] is
    overwritten. *)
Definition mergeItem (i updated : KanbanItem.t) : KanbanItem.t :=
  KanbanItem.mk (KanbanItem.id updated) (KanbanItem.title updated)
                (KanbanItem.description updated) (KanbanItem.links updated).

(** [handleEdit], on success. *)
Definition editUpdater (c : ColumnKey) (updated : KanbanItem.t)
    (prev : BoardState) : BoardState :=
  ensureUniqueItems
    (put c ((λ i, if decide (KanbanItem.id i = KanbanItem.id updated)
                  then mergeItem i updated else i) <$> col c prev)
         prev).

(** [handleDragEnd], same container. *)
Definition reorderUpdater (overContainer : ColumnKey) (activeIndex overIndex : Z)
    (prev : BoardState) : RawBoard :=
  put overContainer (arrayMove (col overContainer prev) activeIndex overIndex)
      (raw prev).

(** [handleDragEnd], across containers.  [activeContainer] has been
    read from before the call; [overContainer] has not. *)
Definition moveUpdater (activeId : string) (activeItem : KanbanItem.t)
    (activeContainer : ColumnKey) (overContainer : string)
    (prev : BoardState) : Exc BoardState :=
  let newBoard :=
    put activeContainer
        (filter (λ item, KanbanItem.id item ≠ activeId) (col activeContainer prev))
        prev in
  ko ←! own_key overContainer;
  Ok (ensureUniqueItems (put ko (col ko newBoard ++ [activeItem]) newBoard)).

(** The insertion index of [handleDragOver].  [isBelowOverItem] is the
    outcome of the comparison of the two rectangles. *)
Definition dragOverIndex (overId : string) (isBelowOverItem : bool)
    (overItems : list KanbanItem.t) : Z :=
  let overIndex := findIndex (λ item, KanbanItem.id item = overId) overItems in
  if in_board overId then (Z.of_nat (length overItems) + 1)%Z
  else
    let modifier := if isBelowOverItem then 1%Z else 0%Z in
    if (0 <=? overIndex)%Z then (overIndex + modifier)%Z
    else (Z.of_nat (length overItems) + 1)%Z.

(** [handleDragOver]. *)
Definition dragOverUpdater (activeId overId : string) (isBelowOverItem : bool)
    (activeContainer overContainer : string) (prev : BoardState) : Exc RawBoard :=
  ka ←! own_key activeContainer;
  ko ←! own_key overContainer;
  let activeItems := col ka prev in
  let overItems := col ko prev in
  let activeIndex := findIndex (λ item, KanbanItem.id item = activeId) activeItems in
  let newIndex := dragOverIndex overId isBelowOverItem overItems in
  Ok (put ko
        ((Some <$> slice (col ko prev) 0 newIndex)
           ++ at_index (col ka prev) activeIndex
           :: (Some <$> slice (col ko prev) newIndex (Z.of_nat (length (col ko prev)))))
        (put ka (Some <$> filter (λ item, KanbanItem.id item ≠ activeId) (col ka prev))
             (raw prev))).

(** ** Remote store calls and handlers as tasks *)

(** The requests the component sends, indexed by the type of the [data]
    they answer with.  Timestamps ([updated_at]) are left out. *)
Inductive Remote : Type → Type :=
  | SelectColumns : Remote (list ColumnKey)
  | SelectCards : Remote (list CardRow.t)
  | InsertCard (title : string) (description : option string)
      (links : option (list LinkItem.t)) (column_key : ColumnKey)
      (position : nat) : Remote CardRow.t
  | DeleteCard (id : string) : Remote unit
  | UpdateCard (id : string) (title : string) (description : option string)
      (links : option (list LinkItem.t)) : Remote CardRow.t
  | UpdateColumn (id : string) (column_key : string) : Remote unit
  | UpdatePositions (rows : list (string * nat)) : Remote unit.

(** An awaited request either resolves to [{ data, error }] ([error]
    carrying its [message]) or rejects. *)
Inductive Reply (R : Type) : Type :=
  | Resolved (data : option R) (error : option string)
  | Rejected.
Arguments Resolved {R}.
Arguments Rejected {R}.

(** The body of a handler, as the sequence of effects it performs.
    [Await] suspends the handler until the reply arrives; [Fork] is a
    call of an async function that is not awaited ([void f(...)]): the
    callee runs up to its first [await] and the caller goes on. *)
Inductive Task : Type :=
  | Return
  | Uncaught
  | SetBoard (updater : BoardState → Exc RawBoard) (k : Task)
  | SetError (message : option string) (k : Task)
  | SetLoading (v : bool) (k : Task)
  | MarkAdd (cardId : string) (k : Task)
  | MarkDelete (cardId : string) (k : Task)
  | IfMarked (cardId : string) (yes no : Task)
  | Await {R : Type} (call : Remote R) (k : Reply R → Task)
  | Fork (callee : Task) (k : Task)
  | SetTimeout (ms : nat) (body : Task) (k : Task).

(** [setBoard(prev => f(prev))] for an [f] that neither throws nor
    leaves holes, and for one that may throw. *)
Definition total (f : BoardState → BoardState) : BoardState → Exc RawBoard :=
  λ prev, Ok (raw (f prev)).
Definition partial (f : BoardState → Exc BoardState) : BoardState → Exc RawBoard :=
  λ prev, b ←! f prev; Ok (raw b).

(** The component state the claims talk about: [board], the set behind
    [localUpdateRef], and the [error] and [loading] flags. *)
Record State := mkState {
  board : BoardState;
  localUpdate : gset string;
  error : option string;
  loading : bool;
}.

Definition with_board (b : BoardState) (st : State) : State :=
  mkState b (localUpdate st) (error st) (loading st).
Definition with_localUpdate (m : gset string) (st : State) : State :=
  mkState (board st) m (error st) (loading st).
Definition with_error (e : option string) (st : State) : State :=
  mkState (board st) (localUpdate st) e (loading st).
Definition with_loading (v : bool) (st : State) : State :=
  mkState (board st) (localUpdate st) (error st) v.

(** What a handler leaves behind when it stops: requests whose replies
    it waits for, and timers. *)
Inductive Suspended : Type :=
  | Blocked {R : Type} (call : Remote R) (k : Reply R → Task)
  | Timer (ms : nat) (body : Task).

(** Runs a task until it returns or suspends.  [None] means that an
    updater threw, or that its value cannot be rendered: the component
    is gone and there is no further state to observe. *)
Fixpoint run (t : Task) (st : State) : option (State * list Suspended) :=
  match t with
  | Return => Some (st, [])
  | Uncaught => Some (st, [])
  | SetBoard updater k =>
      match updater (board st) with
      | TypeError => None
      | Ok rb => b ← rendered rb; run k (with_board b st)
      end
  | SetError message k => run k (with_error message st)
  | SetLoading v k => run k (with_loading v st)
  | MarkAdd cardId k => run k (with_localUpdate ({[cardId]} ∪ localUpdate st) st)
  | MarkDelete cardId k => run k (with_localUpdate (localUpdate st ∖ {[cardId]}) st)
  | IfMarked cardId yes no =>
      if decide (cardId ∈ localUpdate st) then run yes st else run no st
  | Await call k => Some (st, [Blocked call k])
  | Fork callee k =>
      '(st1, s1) ← run callee st;
      '(st2, s2) ← run k st1;
      Some (st2, s1 ++ s2)
  | SetTimeout ms body k =>
      '(st1, s1) ← run k st;
      Some (st1, Timer ms body :: s1)
  end.

(** *** The handlers *)

(** The rows [{ id: it.id, position: idx }] of a column. *)
Definition positionRows (items : list KanbanItem.t) : list (string * nat) :=
  imap (λ idx it, (KanbanItem.id it, idx)) items.

(** [persistColumnPositions(col)], then [k].  The rows come from the
    [board] of the closure.  The writes of one column are sent together
    and awaited together; the function catches its own errors, so the
    caller goes on whatever the replies are.  For a [col] that is not an
    own key, [board[col]] is no array: either its [length] is [0] or
    [.map] throws into the function's own [catch], and nothing is
    written. *)
Definition persistColumnPositions (board : BoardState) (c : string) (k : Task) : Task :=
  match as_key c with
  | None => k
  | Some key =>
      match col key board with
      | [] => k
      | items => Await (UpdatePositions (positionRows items)) (λ _, k)
      end
  end.

(** What an unawaited or final [persistColumnPositions(c)] leaves
    suspended. *)
Definition persistSuspended (board : BoardState) (c : ColumnKey) : list Suspended :=
  match col c board with
  | [] => []
  | items => [Blocked (UpdatePositions (positionRows items)) (λ _, Return)]
  end.

Definition loadFailed : Task :=
  SetError (Some "Failed to load board data. Please refresh the page.")
           (SetLoading false Return).

(** The two loops of [fetchData] that build [next].  The rows of
    [kanban_columns] are taken at the type the source casts them to
    ([col.key as ColumnKey]).  The cast is not checked: a row with any
    other key would give the board a fifth key, for which [columnMeta]
    has no entry.  Such a store lies outside this model, and every
    statement about [fetchData] is a statement about stores whose
    column rows carry only the four keys. *)
Definition buildNext (columns : list ColumnKey) (cards : list CardRow.t)
  : Exc BoardState :=
  let next0 := foldl (λ next colKey, put colKey [] next) emptyBoard columns in
  foldl (λ acc c,
           next ←! acc;
           colKey ←! own_key (declaredColumn c);
           Ok (put colKey (col colKey next ++ [toItem c]) next))
        (Ok next0) cards.

(** [fetchData] once both queries have resolved. *)
Definition fetchData_loaded (columns : option (list ColumnKey))
    (cards : option (list CardRow.t)) : Task :=
  match buildNext (default [] columns) (default [] cards) with
  | TypeError => loadFailed
  | Ok next =>
      SetBoard (λ _, Ok (raw (ensureUniqueItems next))) (SetLoading false Return)
  end.

Definition fetchData : Task :=
  SetError None
    (Await SelectColumns (λ r1,
       match r1 with
       | Rejected => loadFailed
       | Resolved columns _ =>
           Await SelectCards (λ r2,
             match r2 with
             | Rejected => loadFailed
             | Resolved cards _ => fetchData_loaded columns cards
             end)
       end)).

(** The subscription callback. *)
Inductive Payload :=
  | INSERT (new : option CardRow.t)
  | UPDATE (new : option CardRow.t)
  | DELETE (old : option string)
  | OtherEvent.

Definition onChange (payload : Payload) : Task :=
  match payload with
  | INSERT (Some new) => SetBoard (partial (insertUpdater new)) Return
  | UPDATE (Some new) =>
      IfMarked (CardRow.id new) Return
               (SetBoard (partial (updateUpdater new)) Return)
  | DELETE (Some old) => SetBoard (total (deleteEventUpdater old)) Return
  | _ => Return
  end.

(** [handleAdd].  [hrefs] is [newLinks] split at commas, trimmed, with
    the empty pieces dropped.  The form fields that the handler resets
    are not part of [State]. *)
Definition handleAdd (board : BoardState) (newTitle newDesc : string)
    (hrefs : list string) (newColumn : ColumnKey) : Task :=
  let links := imap (λ i href, LinkItem.mk (linkLabel i) href) hrefs in
  Await (InsertCard newTitle
                    (if decide (newDesc = "") then None else Some newDesc)
                    (match links with [] => None | _ => Some links end)
                    newColumn 0)
        (λ r,
           match r with
           | Resolved (Some data) None =>
               SetBoard (total (addUpdater newColumn (toItem data)))
                 (Fork (persistColumnPositions board (key_name newColumn) Return)
                       Return)
           | Resolved _ _ => Return
           | Rejected => Uncaught
           end).

(** [handleDelete]. *)
Definition handleDelete (board : BoardState) (c : ColumnKey) (id : string) : Task :=
  SetError None
    (Await (DeleteCard id) (λ r,
       match r with
       | Resolved _ (Some message) =>
           SetError (Some ("Failed to delete task: " +:+ message)) Return
       | Resolved _ None =>
           SetBoard (total (deleteUpdater c id))
                    (persistColumnPositions board (key_name c) Return)
       | Rejected =>
           SetError (Some "Failed to delete task. Please check your connection.")
                    Return
       end)).

(** [handleEdit]. *)
Definition handleEdit (c : ColumnKey) (updated : KanbanItem.t) : Task :=
  let links := default [] (KanbanItem.links updated) in
  SetError None
    (Await (UpdateCard (KanbanItem.id updated) (KanbanItem.title updated)
                       (KanbanItem.description updated)
                       (match links with [] => None | _ => Some links end))
       (λ r,
          match r with
          | Resolved _ (Some message) =>
              SetError (Some ("Failed to update task: " +:+ message)) Return
          | Resolved _ None => SetBoard (total (editUpdater c updated)) Return
          | Rejected =>
              SetError (Some "Failed to update task. Please check your connection.")
                       Return
          end)).

(** The writes that [persistColumnPositions(col)] sends before it
    waits: one for each card of [board[col]] on the closure's board,
    none for an empty column or for a [col] that is not an own key. *)
Definition positionWrites (board : BoardState) (c : string) : list (string * nat) :=
  match as_key c with
  | None => []
  | Some key => positionRows (col key board)
  end.

(** [updateCardColumnAndPositions].  Under [Promise.all] both position
    passes start before the handler waits: the pass of [newCol] sends
    its writes and suspends, then the pass of [oldCol] does, so the
    writes of the two columns are in flight together, and the handler
    goes on, once, when both passes have ended, whatever the answers
    (each pass catches its own errors).  With nothing to write the
    handler goes on at once.  The marker is removed by a timer of
    1000 ms. *)
Definition updateCardColumnAndPositions (board : BoardState)
    (cardId newCol oldCol : string) : Task :=
  MarkAdd cardId
    (Await (UpdateColumn cardId newCol) (λ r,
       match r with
       | Resolved _ (Some message) =>
           SetError (Some ("Failed to move task: " +:+ message))
                    (MarkDelete cardId Return)
       | Resolved _ None =>
           let finish := SetTimeout 1000 (MarkDelete cardId Return) Return in
           match positionWrites board newCol ++ positionWrites board oldCol with
           | [] => finish
           | writes => Await (UpdatePositions writes) (λ _, finish)
           end
       | Rejected =>
           SetError (Some "Failed to move task. Please check your connection.")
                    (MarkDelete cardId Return)
       end)).

(** [handleDragOver]; [over] is [None] when the event has no target,
    and otherwise carries the target's id and the outcome of the
    rectangle comparison. *)
Definition handleDragOver (board : BoardState) (activeId : string)
    (over : option (string * bool)) : Task :=
  match over with
  | None => Return
  | Some (overId, isBelowOverItem) =>
      match findContainer board activeId, findContainer board overId with
      | Some activeContainer, Some overContainer =>
          if decide (activeContainer ≠ overContainer) then
            SetBoard (dragOverUpdater activeId overId isBelowOverItem
                                      activeContainer overContainer)
                     Return
          else Return
      | _, _ => Return
      end
  end.

(** [handleDragEnd].  Both branches begin by reading
    [board[activeContainer]] and calling an array method on it. *)
Definition handleDragEnd (board : BoardState) (activeId : string)
    (over : option string) : Task :=
  match over with
  | None => Return
  | Some overId =>
      match findContainer board activeId, findContainer board overId with
      | Some activeContainer, Some overContainer =>
          if decide (activeContainer = overContainer) then
            match own_key activeContainer with
            | TypeError => Uncaught
            | Ok k =>
                let activeIndex :=
                  findIndex (λ item, KanbanItem.id item = activeId) (col k board) in
                let overIndex :=
                  findIndex (λ item, KanbanItem.id item = overId) (col k board) in
                if decide (activeIndex ≠ overIndex) then
                  SetBoard (λ prev, Ok (reorderUpdater k activeIndex overIndex prev))
                    (Fork (persistColumnPositions board overContainer Return) Return)
                else Return
            end
          else
            match own_key activeContainer with
            | TypeError => Uncaught
            | Ok ka =>
                match find (λ item, KanbanItem.id item = activeId) (col ka board) with
                | Some activeItem =>
                    SetBoard (partial (moveUpdater activeId activeItem ka overContainer))
                      (Fork (updateCardColumnAndPositions board activeId
                                                          overContainer activeContainer)
                            Return)
                | None => Return
                end
            end
      | _, _ => Return
      end
  end.

(** ** The component as a transition system *)

(** A handler invocation.  The [board] a handler reads outside of an
    updater is the one of the render that created it; any board may be
    in that position here, which covers every interleaving of renders
    and events.  [handleDragStart] only records [activeId], which is
    not part of [State]. *)
Inductive Handler : Task → Prop :=
  | H_fetchData : Handler fetchData
  | H_onChange payload : Handler (onChange payload)
  | H_handleAdd seen newTitle newDesc hrefs newColumn :
      Handler (handleAdd seen newTitle newDesc hrefs newColumn)
  | H_handleDelete seen c id : Handler (handleDelete seen c id)
  | H_handleEdit c updated : Handler (handleEdit c updated)
  | H_handleDragOver seen activeId over : Handler (handleDragOver seen activeId over)
  | H_handleDragEnd seen activeId over : Handler (handleDragEnd seen activeId over).

Record System := mkSystem {
  state : State;
  pending : list Suspended;
}.

Definition initialState : State := mkState initialBoard ∅ None true.
Definition initialSystem : System := mkSystem initialState [].

Inductive step : System → System → Prop :=
  | step_handler s t st' new :
      Handler t →
      run t (state s) = Some (st', new) →
      step s (mkSystem st' (pending s ++ new))
  | step_reply s R (call : Remote R) k (r : Reply R) before after st' new :
      pending s = before ++ Blocked call k :: after →
      run (k r) (state s) = Some (st', new) →
      step s (mkSystem st' (before ++ after ++ new))
  | step_timer s ms body before after st' new :
      pending s = before ++ Timer ms body :: after →
      run body (state s) = Some (st', new) →
      step s (mkSystem st' (before ++ after ++ new)).

Definition reachable (s : System) : Prop := rtc step initialSystem s.

(** ** Notions used in the statements and proofs *)

(** The keys enumerated before [k], and the cards of those columns. *)
Definition earlier (k : ColumnKey) : list ColumnKey :=
  match k with
  | todo => []
  | doing => [todo]
  | done => [todo; doing]
  | temp => [todo; doing; done]
  end.
Definition before (k : ColumnKey) (b : BoardState) : list KanbanItem.t :=
  mjoin ((λ k', col k' b) <$> earlier k).
Definition rank (k : ColumnKey) : nat := length (earlier k).

(** A task is safe when every board update it may ever perform, under
    any replies, leads from a duplicate-free board to a duplicate-free
    one. *)
Fixpoint Safe (t : Task) : Prop :=
  match t with
  | Return | Uncaught => True
  | SetBoard updater k =>
      (∀ b rb b', NoDupBoard b → updater b = Ok rb → rendered rb = Some b' →
                  NoDupBoard b') ∧ Safe k
  | SetError _ k | SetLoading _ k | MarkAdd _ k | MarkDelete _ k => Safe k
  | IfMarked _ yes no => Safe yes ∧ Safe no
  | Await _ k => ∀ r, Safe (k r)
  | Fork callee k => Safe callee ∧ Safe k
  | SetTimeout _ body k => Safe body ∧ Safe k
  end.

Definition SafeSuspended (s : Suspended) : Prop :=
  match s with
  | Blocked _ k => ∀ r, Safe (k r)
  | Timer _ body => Safe body
  end.

(** What the proof of the board invariant carries along: the board has
    no duplicates, and everything that is still suspended is safe. *)
Definition Invariant (s : System) : Prop :=
  NoDupBoard (board (state s)) ∧ Forall SafeSuspended (pending s).

(** ** Sample data *)

Definition sample_row : CardRow.t :=
  CardRow.mk "7" "Write spec" None None (Some "doing").
Definition sample_inserted : System :=
  mkSystem (mkState (mkBoard [] [toItem sample_row] [] []) ∅ None true) [].
Definition sample_system : System :=
  mkSystem (mkState (mkBoard [] [] [toItem sample_row] []) ∅ None true) [].

Definition sample_item : KanbanItem.t := KanbanItem.mk "1" "Write spec" None None.
Definition sample_state : State :=
  mkState (mkBoard [sample_item] [] [] []) ∅ None false.
Definition stray_row : CardRow.t :=
  CardRow.mk "9" "Stray" None None (Some "archive").

Definition second_item : KanbanItem.t := KanbanItem.mk "2" "Review" None None.
Definition two_cards : State :=
  mkState (mkBoard [sample_item; second_item] [] [] []) ∅ None false.
Definition marked_state : State :=
  mkState (mkBoard [sample_item] [] [] []) {["1"]} None false.
Definition update_row : CardRow.t :=
  CardRow.mk "1" "Write the spec" None None (Some "doing").
Definition done_state : State :=
  mkState (mkBoard [] [] [sample_item] []) ∅ None false.
Definition echo_row : CardRow.t :=
  CardRow.mk "1" "Rewritten" None None (Some "todo").
Definition keyless_row : CardRow.t :=
  CardRow.mk "8" "No column" None None None.

Definition done_row : CardRow.t :=
  CardRow.mk "1" "Write the spec" None None (Some "done").

(** ** Further parts of the component *)

(** [findActiveItem]: the loop over [Object.values(board)] that returns
    the first card found with the id. *)
Fixpoint firstFound (id : string) (columns : list (list KanbanItem.t))
  : option KanbanItem.t :=
  match columns with
  | [] => None
  | items :: rest =>
      match find (λ item, KanbanItem.id item = id) items with
      | Some found => Some found
      | None => firstFound id rest
      end
  end.

Definition findActiveItem (board : BoardState) (id : string) : option KanbanItem.t :=
  firstFound id ((λ e, e.2) <$> entries board).

(** [const activeItem = activeId ? findActiveItem(activeId) : null]:
    the card shown in the drag overlay.  The empty string is falsy. *)
Definition activeItem (board : BoardState) (activeId : option string)
  : option KanbanItem.t :=
  match activeId with
  | Some id => if decide (id = "") then None else findActiveItem board id
  | None => None
  end.

Definition column_named_card : KanbanItem.t := KanbanItem.mk "todo" "Odd id" None None.
Definition odd_state : State :=
  mkState (mkBoard [] [column_named_card] [] []) ∅ None false.

(** ** Running a handler to its end

    A store that answers every request as soon as it is asked: [reply]
    gives the answer.  [drain] resumes what is suspended, oldest first,
    timers included, until nothing is left; [settle] runs a task and
    drains what it leaves.  No other handler runs in between.  [None]
    stands for a crash, or for more than [fuel] resumptions. *)
Definition Store := ∀ R : Type, Remote R → Reply R.

Fixpoint drain (fuel : nat) (reply : Store) (waiting : list Suspended) (st : State)
  : option State :=
  match waiting with
  | [] => Some st
  | s :: rest =>
      match fuel with
      | 0 => None
      | S fuel' =>
          let t := match s with
                   | Blocked call k => k (reply _ call)
                   | Timer _ body => body
                   end in
          '(st1, new) ← run t st;
          drain fuel' reply (rest ++ new) st1
      end
  end.

Definition settle (fuel : nat) (reply : Store) (t : Task) (st : State) : option State :=
  '(st1, waiting) ← run t st;
  drain fuel reply waiting st1.

(** A store whose queries resolve with an error object and no data, and
    a store that rejects every request. *)
Definition failing_store : Store := λ R _, Resolved None (Some "permission denied").
Definition offline_store : Store := λ R _, Rejected.
Definition silent_store : Store := λ R _, Resolved None None.


(** ** The links field of the forms *)

(** Strings are sequences of UTF-8 bytes; [bytes] and [text] pass
    between a string and its bytes. *)
Definition bytes (s : string) : list ascii := String.list_ascii_of_string s.
Definition text (l : list ascii) : string := String.string_of_list_ascii l.

(** [String.prototype.split] with a one-character separator: the pieces
    between the separators, the empty pieces included; a string without
    the separator is its own single piece. *)
Fixpoint splitBytes (sep : ascii) (l : list ascii) : list (list ascii) :=
  match l with
  | [] => [[]]
  | a :: l' =>
      if decide (a = sep) then [] :: splitBytes sep l'
      else match splitBytes sep l' with
           | piece :: rest => (a :: piece) :: rest
           | [] => [[a]]
           end
  end.
Definition split (sep : ascii) (s : string) : list string :=
  text <$> splitBytes sep (bytes s).

(** The code points that [String.prototype.trim] removes, WhiteSpace and
    LineTerminator of ECMAScript, each by its UTF-8 encoding:
    U+0009 to U+000D, U+0020, U+00A0, U+1680, U+2000 to U+200A, U+2028,
    U+2029, U+202F, U+205F, U+3000 and U+FEFF. *)
Definition whiteSpace : list (list N) :=
  [ [9]; [10]; [11]; [12]; [13]; [32];
    [194; 160];
    [225; 154; 128];
    [226; 128; 128]; [226; 128; 129]; [226; 128; 130]; [226; 128; 131];
    [226; 128; 132]; [226; 128; 133]; [226; 128; 134]; [226; 128; 135];
    [226; 128; 136]; [226; 128; 137]; [226; 128; 138];
    [226; 128; 168]; [226; 128; 169]; [226; 128; 175];
    [226; 129; 159];
    [227; 128; 128];
    [239; 187; 191] ]%N.
Definition isWhite (w : list ascii) : bool :=
  bool_decide (N_of_ascii <$> w ∈ whiteSpace).

(** [strip false] removes the white space a byte sequence starts with;
    [strip true] does so on a reversed sequence, where the bytes of a
    code point come last byte first. *)
Definition inOrder (backwards : bool) (w : list ascii) : list ascii :=
  if backwards then reverse w else w.
Fixpoint strip (backwards : bool) (s : list ascii) : list ascii :=
  match s with
  | [] => []
  | a :: s1 =>
      if isWhite [a] then strip backwards s1
      else
        match s1 with
        | [] => s
        | b :: s2 =>
            if isWhite (inOrder backwards [a; b]) then strip backwards s2
            else
              match s2 with
              | [] => s
              | c :: s3 =>
                  if isWhite (inOrder backwards [a; b; c])
                  then strip backwards s3 else s
              end
        end
  end.
Definition starts (backwards : bool) (s : list ascii) : bool :=
  match s with
  | [] => false
  | a :: s1 =>
      isWhite [a] ||
      match s1 with
      | [] => false
      | b :: s2 =>
          isWhite (inOrder backwards [a; b]) ||
          match s2 with
          | [] => false
          | c :: _ => isWhite (inOrder backwards [a; b; c])
          end
      end
  end.
Definition trimBytes (s : list ascii) : list ascii :=
  reverse (strip true (reverse (strip false s))).
Definition trim (s : string) : string := text (trimBytes (bytes s)).

(** [Array.prototype.join] on strings. *)
Fixpoint join (sep : string) (l : list string) : string :=
  match l with
  | [] => ""
  | [x] => x
  | x :: rest => x +:+ sep +:+ join sep rest
  end.

(** [s.split(',').map(s => s.trim()).filter(Boolean)], and the links
    that [handleAdd] and [handleSave] make of it. *)
Definition hrefsOf (s : string) : list string :=
  filter (λ h, h ≠ "") (trim <$> split "," s).
Definition labelled (hrefs : list string) : list LinkItem.t :=
  imap (λ i href, LinkItem.mk (linkLabel i) href) hrefs.
Definition parseLinks (s : string) : list LinkItem.t := labelled (hrefsOf s).

(** [KanbanCard]: the initial values of the three fields of the edit
    form, and the card that [handleSave] hands to [onEdit]. *)
Definition initialTitle (item : KanbanItem.t) : string := KanbanItem.title item.
Definition initialDesc (item : KanbanItem.t) : string :=
  match KanbanItem.description item with
  | Some d => d
  | None => ""
  end.
Definition initialLinks (item : KanbanItem.t) : string :=
  join ", " (LinkItem.href <$> default [] (KanbanItem.links item)).
Definition handleSave (item : KanbanItem.t) (editTitle editDesc editLinks : string)
  : KanbanItem.t :=
  let links := parseLinks editLinks in
  KanbanItem.mk (KanbanItem.id item) editTitle
    (if decide (editDesc = "") then None else Some editDesc)
    (match links with [] => None | _ => Some links end).

(** A link target that the form gives back as it is: not empty, no
    comma, no white space at either end. *)
Definition clean (h : string) : Prop :=
  h ≠ "" ∧ (("," : ascii) ∉ bytes h) ∧ trim h = h.
#[global] Instance clean_dec h : Decision (clean h).
Proof. unfold clean. apply _. Defined.

Definition noted_item : KanbanItem.t :=
  KanbanItem.mk "3" "Read" (Some "")
    (Some [LinkItem.mk "Docs" "https://a.example"; LinkItem.mk "Link 2" "b.example"]).

(** ** Properties of the array primitives *)

Section js_array_facts.
Context {A : Type}.
Implicit Types l : list A.

Lemma clamp_index_le len i : clamp_index len i ≤ len.
Proof. unfold clamp_index. destruct (i <? 0)%Z eqn:?; lia. Qed.

Lemma clamp_index_nonneg len (i : Z) :
  (0 ≤ i)%Z → clamp_index len i = Z.to_nat i `min` len.
Proof. unfold clamp_index. intros. destruct (i <? 0)%Z eqn:?; lia. Qed.

Lemma slice_prefix l (i : Z) :
  (0 ≤ i)%Z → slice l 0 i = take (Z.to_nat i) l.
Proof.
  intros Hi. unfold slice. rewrite (clamp_index_nonneg _ 0), clamp_index_nonneg by lia.
  change (Z.to_nat 0) with 0. rewrite Nat.min_0_l, Nat.sub_0_r, drop_0.
  destruct (decide (Z.to_nat i ≤ length l)).
  - by rewrite Nat.min_l.
  - rewrite Nat.min_r by lia. rewrite !take_ge; [done|lia..].
Qed.

Lemma slice_suffix l (i : Z) :
  (0 ≤ i)%Z → slice l i (Z.of_nat (length l)) = drop (Z.to_nat i) l.
Proof.
  intros Hi. unfold slice. rewrite !clamp_index_nonneg by lia.
  rewrite Nat2Z.id, Nat.min_id.
  destruct (decide (Z.to_nat i ≤ length l)).
  - rewrite Nat.min_l by lia. apply take_ge. rewrite length_drop. lia.
  - rewrite Nat.min_r by lia. rewrite Nat.sub_diag, !drop_ge by lia. done.
Qed.

Lemma findIndex_range (P : A → Prop) `{∀ x, Decision (P x)} l :
  (-1 ≤ findIndex P l < Z.of_nat (length l))%Z.
Proof.
  unfold findIndex. destruct (list_find P l) as [[i x]|] eqn:Hf; [|lia].
  apply list_find_Some in Hf as (Hl & _). apply lookup_lt_Some in Hl. lia.
Qed.

Lemma findIndex_found (P : A → Prop) `{∀ x, Decision (P x)} l :
  (0 ≤ findIndex P l)%Z ↔ ∃ x, x ∈ l ∧ P x.
Proof.
  unfold findIndex. destruct (list_find P l) as [[i x]|] eqn:Hf.
  - apply list_find_Some in Hf as (Hl & HP & _). split; [|lia].
    intros _. exists x. split; [by eapply list_elem_of_lookup_2|done].
  - split; [lia|]. intros (x & Hx & HP).
    apply list_find_None in Hf. rewrite Forall_forall in Hf. naive_solver.
Qed.

Lemma at_findIndex (P : A → Prop) `{∀ x, Decision (P x)} l :
  at_index l (findIndex P l) = find P l.
Proof.
  unfold at_index, findIndex, find.
  destruct (list_find P l) as [[i x]|] eqn:Hf; [|done].
  apply list_find_Some in Hf as (Hl & _).
  destruct (Z.ltb_spec (Z.of_nat i) 0); [lia|]. by rewrite Nat2Z.id.
Qed.

Lemma find_Some (P : A → Prop) `{∀ x, Decision (P x)} l x :
  find P l = Some x → x ∈ l ∧ P x.
Proof.
  unfold find. destruct (list_find P l) as [[i y]|] eqn:Hf; simpl; [|done].
  intros [= ->]. apply list_find_Some in Hf as (Hl & HP & _).
  split; [by eapply list_elem_of_lookup_2|done].
Qed.

Lemma find_None (P : A → Prop) `{∀ x, Decision (P x)} l :
  find P l = None ↔ ∀ x, x ∈ l → ¬ P x.
Proof.
  unfold find. rewrite fmap_None, list_find_None, Forall_forall. done.
Qed.

Lemma find_is_Some (P : A → Prop) `{∀ x, Decision (P x)} l :
  is_Some (find P l) ↔ ∃ x, x ∈ l ∧ P x.
Proof.
  split.
  - intros [x Hx]. exists x. by eapply find_Some.
  - intros (x & Hx & HP). destruct (find P l) eqn:Hf; [by eexists|].
    rewrite find_None in Hf. naive_solver.
Qed.
End js_array_facts.

(** ** Properties of boards *)

Section board_facts.
Context {A : Type}.
Implicit Types (b : Board A) (k : ColumnKey).

Lemma col_put k v b : col k (put k v b) = v.
Proof. by destruct k. Qed.

Lemma col_put_ne k k' v b : k ≠ k' → col k' (put k v b) = col k' b.
Proof. by destruct k, k'. Qed.

Lemma board_eq b1 b2 : (∀ k, col k b1 = col k b2) → b1 = b2.
Proof.
  intros H. destruct b1, b2.
  f_equal; [apply (H todo)|apply (H doing)|apply (H done)|apply (H temp)].
Qed.

Lemma put_col k b : put k (col k b) b = b.
Proof. by destruct k, b. Qed.

Lemma elem_of_cards b x : x ∈ cards b ↔ ∃ k, x ∈ col k b.
Proof.
  unfold cards. rewrite !elem_of_app. split.
  - intros [?|[?|[?|?]]]; [by exists todo|by exists doing|by exists done|by exists temp].
  - intros [[] ?]; simpl in *; tauto.
Qed.
End board_facts.

Lemma as_key_name k : as_key (key_name k) = Some k.
Proof. by destruct k. Qed.

Lemma as_key_Some s k : as_key s = Some k → s = key_name k.
Proof.
  unfold as_key. repeat case_decide; intros [= <-]; by subst.
Qed.

Lemma key_name_inj k1 k2 : key_name k1 = key_name k2 → k1 = k2.
Proof.
  intros H. apply (f_equal as_key) in H. rewrite !as_key_name in H. congruence.
Qed.

Lemma own_key_name k : own_key (key_name k) = Ok k.
Proof. unfold own_key. by rewrite as_key_name. Qed.

Lemma own_key_Ok s k : own_key s = Ok k → s = key_name k.
Proof.
  unfold own_key. destruct (as_key s) eqn:E; [|done].
  intros [= ->]. by apply as_key_Some.
Qed.

Lemma in_board_name k : in_board (key_name k) = true.
Proof. by destruct k. Qed.

Lemma mapM_id_Some {A} (l : list (option A)) l' :
  mapM (λ x, x) l = Some l' ↔ l = Some <$> l'.
Proof.
  rewrite mapM_Some. split.
  - induction 1 as [|x y l l' Hx _ IH]; [done|]. rewrite fmap_cons. by f_equal.
  - intros ->. induction l'; constructor; done.
Qed.

Lemma rendered_raw b : rendered (raw b) = Some b.
Proof.
  unfold rendered, raw. simpl.
  assert (∀ l : list KanbanItem.t, mapM (λ x, x) (Some <$> l) = Some l) as E
    by (intros; by apply mapM_id_Some).
  rewrite !E. simpl. by destruct b.
Qed.

Lemma rendered_Some rb b :
  rendered rb = Some b ↔ ∀ k, col k rb = Some <$> col k b.
Proof.
  unfold rendered. split.
  - intros H.
    destruct (mapM _ (col_todo rb)) as [t|] eqn:Ht; [|done].
    destruct (mapM _ (col_doing rb)) as [d|] eqn:Hd; [|done].
    destruct (mapM _ (col_done rb)) as [n|] eqn:Hn; [|done].
    destruct (mapM _ (col_temp rb)) as [p|] eqn:Hp; [|done].
    simpl in H. injection H as <-.
    apply mapM_id_Some in Ht, Hd, Hn, Hp. by intros [].
  - intros H.
    pose proof (H todo) as Ht. pose proof (H doing) as Hd.
    pose proof (H done) as Hn. pose proof (H temp) as Hp.
    simpl in *. apply mapM_id_Some in Ht, Hd, Hn, Hp.
    rewrite Ht, Hd, Hn, Hp. simpl. by destruct b.
Qed.

Lemma elem_of_all_ids b x : x ∈ all_ids b ↔ ∃ k, x ∈ ids (col k b).
Proof.
  unfold all_ids, ids. rewrite list_elem_of_fmap. split.
  - intros (i & -> & Hi). apply elem_of_cards in Hi as [k Hk].
    exists k. apply list_elem_of_fmap. eauto.
  - intros (k & Hk). apply list_elem_of_fmap in Hk as (i & -> & Hi).
    exists i. split; [done|]. apply elem_of_cards. eauto.
Qed.
Lemma NoDupBoard_alt b :
  NoDupBoard b ↔
    (∀ k, NoDup (ids (col k b))) ∧
    (∀ k1 k2 x, x ∈ ids (col k1 b) → x ∈ ids (col k2 b) → k1 = k2).
Proof.
  unfold NoDupBoard, all_ids, ids, cards. rewrite !fmap_app, !NoDup_app.
  repeat setoid_rewrite elem_of_app. split.
  - intros (Ht & Htd & Hd & Hdn & Hn & Hnp & Hp). split.
    + by intros [].
    + intros [] [] x H1 H2; simpl in *; try done; exfalso;
        first [by eapply Htd; eauto | by eapply Hdn; eauto | by eapply Hnp; eauto].
  - intros [H1 H2].
    split; [apply (H1 todo)|]. split.
    { intros x Hx [H|[H|H]];
        [discriminate (H2 todo doing x Hx H)
        |discriminate (H2 todo done x Hx H)
        |discriminate (H2 todo temp x Hx H)]. }
    split; [apply (H1 doing)|]. split.
    { intros x Hx [H|H];
        [discriminate (H2 doing done x Hx H)|discriminate (H2 doing temp x Hx H)]. }
    split; [apply (H1 done)|]. split; [|apply (H1 temp)].
    intros x Hx H. discriminate (H2 done temp x Hx H).
Qed.
(** ** Properties of [ensureUniqueItems] *)

Lemma filterSeen_snd seen l :
  (filterSeen seen l).2 = seen ∪ list_to_set (ids l).
Proof.
  revert seen. induction l as [|i l IH]; intros seen; simpl.
  - set_solver.
  - case_decide.
    + rewrite IH. set_solver.
    + specialize (IH ({[KanbanItem.id i]} ∪ seen)).
      destruct (filterSeen _ l). simpl in *. rewrite IH. set_solver.
Qed.

Lemma filterSeen_elem seen l i :
  i ∈ (filterSeen seen l).1 → i ∈ l ∧ KanbanItem.id i ∉ seen.
Proof.
  revert seen. induction l as [|j l IH]; intros seen; simpl.
  - by intros ?%elem_of_nil.
  - case_decide.
    + intros ?%IH. set_solver.
    + specialize (IH ({[KanbanItem.id j]} ∪ seen)).
      destruct (filterSeen _ l). simpl in *.
      intros [->|?%IH]%elem_of_cons; set_solver.
Qed.

Lemma filterSeen_NoDup seen l : NoDup (ids (filterSeen seen l).1).
Proof.
  revert seen. induction l as [|j l IH]; intros seen; simpl.
  - constructor.
  - case_decide; [apply IH|].
    pose proof (IH ({[KanbanItem.id j]} ∪ seen)) as IH'.
    pose proof (filterSeen_elem ({[KanbanItem.id j]} ∪ seen) l) as He.
    destruct (filterSeen _ l) as [kept s]. simpl in *.
    constructor; [|done].
    intros (i & Hi & Hin)%list_elem_of_fmap. apply He in Hin. set_solver.
Qed.

Lemma filterSeen_complete seen l x :
  x ∈ ids l → x ∉ seen → x ∈ ids (filterSeen seen l).1.
Proof.
  revert seen. induction l as [|j l IH]; intros seen; simpl.
  - by intros ?%elem_of_nil.
  - intros Hx Hs. case_decide.
    + apply IH; set_solver.
    + specialize (IH ({[KanbanItem.id j]} ∪ seen)).
      destruct (filterSeen _ l) as [kept s]. simpl in *.
      destruct (decide (x = KanbanItem.id j)) as [->|]; [set_solver|].
      apply elem_of_cons. right. apply IH; set_solver.
Qed.

Lemma filter_ext_elem {A} (P Q : A → Prop) `{∀ x, Decision (P x)}
    `{∀ x, Decision (Q x)} (l : list A) :
  (∀ x, x ∈ l → P x ↔ Q x) → filter P l = filter Q l.
Proof.
  induction l as [|x l IH]; intros HPQ; [done|].
  rewrite !filter_cons. rewrite IH by (intros; apply HPQ; set_solver).
  destruct (decide (P x)), (decide (Q x)); try done; exfalso;
    pose proof (HPQ x ltac:(set_solver)); tauto.
Qed.

Lemma filter_all {A} (P : A → Prop) `{∀ x, Decision (P x)} (l : list A) :
  (∀ x, x ∈ l → P x) → filter P l = l.
Proof.
  induction l as [|x l IH]; intros HP; [done|].
  rewrite filter_cons_True by (apply HP; set_solver).
  rewrite IH; [done|]. intros; apply HP; set_solver.
Qed.

(** On a list without repeated ids the callback is a plain filter. *)
Lemma filterSeen_filter seen l :
  NoDup (ids l) →
  (filterSeen seen l).1 = filter (λ i, KanbanItem.id i ∉ seen) l.
Proof.
  revert seen. induction l as [|j l IH]; intros seen Hnd; simpl; [done|].
  apply NoDup_cons in Hnd as [Hj Hnd].
  case_decide.
  - rewrite filter_cons_False by naive_solver. by apply IH.
  - rewrite filter_cons_True by done.
    specialize (IH ({[KanbanItem.id j]} ∪ seen) Hnd).
    destruct (filterSeen _ l) as [kept s]. simpl in *. rewrite IH. f_equal.
    apply filter_ext_elem. intros x Hx.
    assert (KanbanItem.id x ≠ KanbanItem.id j).
    { intros E. apply Hj. rewrite <-E. apply list_elem_of_fmap. eauto. }
    set_solver.
Qed.

Lemma earlier_rank k k' : k' ∈ earlier k ↔ rank k' < rank k.
Proof.
  destruct k, k'; cbn; rewrite ?elem_of_cons, ?elem_of_nil;
    split; intros; try lia; naive_solver.
Qed.

Lemma rank_inj k k' : rank k = rank k' → k = k'.
Proof. by destruct k, k'. Qed.

Lemma earlier_total k k' : k ≠ k' → k' ∈ earlier k ∨ k ∈ earlier k'.
Proof.
  intros Hne. rewrite !earlier_rank.
  destruct (decide (rank k = rank k')) as [?%rank_inj|]; [done|lia].
Qed.

Lemma earlier_irrefl k : k ∉ earlier k.
Proof. rewrite earlier_rank. lia. Qed.

Lemma elem_of_before k b i :
  i ∈ before k b ↔ ∃ k', k' ∈ earlier k ∧ i ∈ col k' b.
Proof.
  unfold before. rewrite list_elem_of_join. split.
  - intros (l & Hi & (k' & -> & Hk')%list_elem_of_fmap). eauto.
  - intros (k' & Hk' & Hi). exists (col k' b). split; [done|].
    apply list_elem_of_fmap. eauto.
Qed.

Lemma elem_of_ids_before k b x :
  x ∈ ids (before k b) ↔ ∃ k', k' ∈ earlier k ∧ x ∈ ids (col k' b).
Proof.
  unfold ids. rewrite list_elem_of_fmap. setoid_rewrite elem_of_before.
  setoid_rewrite list_elem_of_fmap. naive_solver.
Qed.

(** Column by column, [ensureUniqueItems] runs the callback with the ids
    of the columns enumerated so far. *)
Lemma col_ensureUniqueItems k b :
  col k (ensureUniqueItems b) =
    (filterSeen (list_to_set (ids (before k b))) (col k b)).1.
Proof.
  unfold ensureUniqueItems, entries, keys. cbn [fmap list_fmap foldl col].
  pose proof (filterSeen_snd ∅ (col_todo b)) as E1.
  destruct (filterSeen ∅ (col_todo b)) as [t s1] eqn:F1.
  pose proof (filterSeen_snd s1 (col_doing b)) as E2.
  destruct (filterSeen s1 (col_doing b)) as [d s2] eqn:F2.
  pose proof (filterSeen_snd s2 (col_done b)) as E3.
  destruct (filterSeen s2 (col_done b)) as [n s3] eqn:F3.
  destruct (filterSeen s3 (col_temp b)) as [p s4] eqn:F4.
  simpl in *. subst s1 s2 s3.
  unfold before, ids.
  destruct k; cbn [col col_todo col_doing col_done col_temp earlier fmap list_fmap
                   mjoin list_join put snd].
  - change (list_to_set [] : gset string) with (∅ : gset string). by rewrite F1.
  - replace (list_to_set (KanbanItem.id <$> col_todo b ++ []) : gset string)
      with ((∅ : gset string) ∪ list_to_set (ids (col_todo b))); [by rewrite F2|].
    unfold ids. rewrite app_nil_r. set_solver.
  - replace (list_to_set (KanbanItem.id <$> col_todo b ++ col_doing b ++ []) : gset string)
      with ((∅ : gset string) ∪ list_to_set (ids (col_todo b))
              ∪ list_to_set (ids (col_doing b))); [by rewrite F3|].
    unfold ids. rewrite app_nil_r, fmap_app, list_to_set_app_L. set_solver.
  - replace (list_to_set (KanbanItem.id <$> col_todo b ++ col_doing b ++ col_done b ++ [])
               : gset string)
      with ((∅ : gset string) ∪ list_to_set (ids (col_todo b))
              ∪ list_to_set (ids (col_doing b)) ∪ list_to_set (ids (col_done b)));
      [by rewrite F4|].
    unfold ids. rewrite app_nil_r, !fmap_app, !list_to_set_app_L. set_solver.
Qed.

Lemma ensureUniqueItems_elem k b i :
  i ∈ col k (ensureUniqueItems b) →
  i ∈ col k b ∧ KanbanItem.id i ∉ ids (before k b).
Proof.
  rewrite col_ensureUniqueItems. intros [? Hs]%filterSeen_elem.
  split; [done|]. by rewrite elem_of_list_to_set in Hs.
Qed.

Lemma ensureUniqueItems_NoDup b : NoDupBoard (ensureUniqueItems b).
Proof.
  apply NoDupBoard_alt. split.
  - intros k. rewrite col_ensureUniqueItems. apply filterSeen_NoDup.
  - assert (∀ k1 k2 x, k1 ∈ earlier k2 →
              x ∈ ids (col k1 (ensureUniqueItems b)) →
              x ∈ ids (col k2 (ensureUniqueItems b)) → False) as Hord.
    { intros k1 k2 x Hk (i1 & -> & H1)%list_elem_of_fmap
             (i2 & E & H2)%list_elem_of_fmap.
      apply ensureUniqueItems_elem in H1 as [H1 _].
      apply ensureUniqueItems_elem in H2 as [_ H2].
      apply H2. rewrite <-E. apply elem_of_ids_before. exists k1.
      split; [done|]. apply list_elem_of_fmap. eauto. }
    intros k1 k2 x H1 H2. destruct (decide (k1 = k2)) as [|Hne]; [done|].
    exfalso. destruct (earlier_total _ _ Hne); eauto.
Qed.

(** On a board that satisfies the invariant the pass changes nothing. *)
Lemma ensureUniqueItems_id b : NoDupBoard b → ensureUniqueItems b = b.
Proof.
  intros [Hcol Hacross]%NoDupBoard_alt. apply board_eq. intros k.
  rewrite col_ensureUniqueItems, filterSeen_filter by done.
  apply filter_all. intros i Hi. rewrite elem_of_list_to_set.
  intros (k' & Hk' & Hx)%elem_of_ids_before.
  assert (k' = k) as ->.
  { apply (Hacross _ _ _ Hx). apply list_elem_of_fmap. eauto. }
  by apply earlier_irrefl in Hk'.
Qed.

(** No identity is lost: what goes is only a second occurrence. *)
Lemma ensureUniqueItems_all_ids b x :
  x ∈ all_ids (ensureUniqueItems b) ↔ x ∈ all_ids b.
Proof.
  rewrite !elem_of_all_ids. split.
  - intros (k & (i & -> & Hi)%list_elem_of_fmap).
    apply ensureUniqueItems_elem in Hi as [Hi _].
    exists k. apply list_elem_of_fmap. eauto.
  - assert (∀ n k, rank k < n → x ∈ ids (col k b) →
                   ∃ k0, x ∈ ids (col k0 (ensureUniqueItems b))) as Hn.
    { induction n as [|n IH]; intros k Hr Hk; [lia|].
      destruct (decide (x ∈ ids (before k b))) as [Hb|Hb].
      - apply elem_of_ids_before in Hb as (k' & Hk' & Hx).
        apply earlier_rank in Hk'. apply (IH k'); [lia|done].
      - exists k. rewrite col_ensureUniqueItems.
        apply filterSeen_complete; [done|]. by rewrite elem_of_list_to_set. }
    intros (k & Hk). by apply (Hn (S (rank k)) k); [lia|].
Qed.

(** ** Boards that keep the invariant *)

Lemma NoDupBoard_sub b b' :
  (∀ k, ids (col k b') `sublist_of` ids (col k b)) →
  NoDupBoard b → NoDupBoard b'.
Proof.
  intros Hsub [Hcol Hacross]%NoDupBoard_alt. apply NoDupBoard_alt. split.
  - intros k. eapply sublist_NoDup; [apply Hcol|apply Hsub].
  - intros k1 k2 x H1 H2. apply (Hacross k1 k2 x).
    + eapply elem_of_sublist; [exact H1|apply Hsub].
    + eapply elem_of_sublist; [exact H2|apply Hsub].
Qed.

Lemma NoDupBoard_perm b b' :
  (∀ k, col k b' ≡ₚ col k b) → NoDupBoard b → NoDupBoard b'.
Proof.
  intros Hp [Hcol Hacross]%NoDupBoard_alt. apply NoDupBoard_alt. split.
  - intros k. unfold ids. by rewrite Hp.
  - intros k1 k2 x. unfold ids in *. rewrite !Hp. apply Hacross.
Qed.

Lemma NoDupBoard_add_fresh b k item l :
  NoDupBoard b → KanbanItem.id item ∉ all_ids b →
  l ≡ₚ item :: col k b → NoDupBoard (put k l b).
Proof.
  intros [Hcol Hacross]%NoDupBoard_alt Hfresh Hl.
  rewrite elem_of_all_ids in Hfresh.
  assert (∀ k' x, x ∈ ids (col k' (put k l b)) →
            (k' = k ∧ x = KanbanItem.id item) ∨ x ∈ ids (col k' b)) as Hin.
  { intros k' x. destruct (decide (k = k')) as [<-|Hne].
    - rewrite col_put. unfold ids. rewrite Hl, fmap_cons, elem_of_cons. naive_solver.
    - rewrite col_put_ne by done. auto. }
  apply NoDupBoard_alt. split.
  - intros k'. destruct (decide (k = k')) as [<-|Hne].
    + rewrite col_put. unfold ids. rewrite Hl, fmap_cons. constructor; [|apply Hcol].
      intros ?. apply Hfresh. by exists k.
    + rewrite col_put_ne by done. apply Hcol.
  - intros k1 k2 x [[-> ->]|H1]%Hin [[-> E]|H2]%Hin; try done.
    + exfalso. apply Hfresh. eauto.
    + exfalso. apply Hfresh. subst x. eauto.
    + eauto.
Qed.

Lemma col_removeEverywhere k cardId b :
  col k (removeEverywhere cardId b) =
    filter (λ item, KanbanItem.id item ≠ cardId) (col k b).
Proof. by destruct k, b. Qed.

Lemma ids_filter_sublist (P : KanbanItem.t → Prop) `{∀ x, Decision (P x)} l :
  ids (filter P l) `sublist_of` ids l.
Proof. unfold ids. apply fmap_sublist, sublist_filter. Qed.

Lemma removeEverywhere_NoDup cardId b :
  NoDupBoard b → NoDupBoard (removeEverywhere cardId b).
Proof.
  apply NoDupBoard_sub. intros k. rewrite col_removeEverywhere.
  apply ids_filter_sublist.
Qed.

Lemma removeEverywhere_absent cardId b : cardId ∉ all_ids (removeEverywhere cardId b).
Proof.
  rewrite elem_of_all_ids. intros (k & (i & E & Hi)%list_elem_of_fmap).
  rewrite col_removeEverywhere in Hi. apply list_elem_of_filter in Hi. naive_solver.
Qed.

(** Removing an identity that is not there changes nothing. *)
Lemma filter_absent cardId (l : list KanbanItem.t) :
  cardId ∉ ids l → filter (λ item, KanbanItem.id item ≠ cardId) l = l.
Proof.
  intros Hx. apply filter_all. intros i Hi E. apply Hx.
  apply list_elem_of_fmap. eauto.
Qed.

(** Taking one card out of its column and putting it, once, anywhere
    into another column keeps the invariant. *)
Lemma NoDupBoard_move b ka ko item l :
  NoDupBoard b → ka ≠ ko → item ∈ col ka b →
  l ≡ₚ item :: col ko b →
  NoDupBoard
    (put ko l
       (put ka (filter (λ i, KanbanItem.id i ≠ KanbanItem.id item) (col ka b)) b)).
Proof.
  intros Hb Hne Hitem Hl.
  set (b1 := put ka _ b).
  assert (NoDupBoard b1) as Hb1.
  { revert Hb. apply NoDupBoard_sub. intros k. subst b1.
    destruct (decide (ka = k)) as [<-|?].
    - rewrite col_put. apply ids_filter_sublist.
    - by rewrite col_put_ne. }
  assert (col ko b1 = col ko b) as Hko by (subst b1; by rewrite col_put_ne).
  apply NoDupBoard_add_fresh with item; [done| |by rewrite Hko].
  rewrite elem_of_all_ids. intros (k & Hk). subst b1.
  destruct (decide (ka = k)) as [<-|?].
  - rewrite col_put in Hk. apply list_elem_of_fmap in Hk as (i & E & Hi).
    apply list_elem_of_filter in Hi. naive_solver.
  - rewrite col_put_ne in Hk by done.
    apply NoDupBoard_alt in Hb as [_ Hacross].
    assert (k = ka); [|done].
    apply (Hacross _ _ _ Hk). apply list_elem_of_fmap. eauto.
Qed.

(** ** [arrayMove] *)

Section arrayMove_facts.
Context {A : Type}.
Implicit Types l : list A.

(** With [from] inside the array (after the relative-index rule) the
    result is a rearrangement of the array, without holes. *)
Lemma arrayMove_in_range l from to :
  clamp_index (length l) from < length l →
  ∃ l', arrayMove l from to = Some <$> l' ∧ l' ≡ₚ l.
Proof.
  intros Hs. unfold arrayMove, splice_out, splice_in.
  rewrite !length_fmap.
  set (s := clamp_index (length l) from) in *.
  destruct (lookup_lt_is_Some_2 l s Hs) as [x Hx].
  set (r := take s l ++ drop (S s) l).
  set (target := if (to <? 0)%Z then _ else _).
  set (t := clamp_index _ target).
  exists (take t r ++ x :: drop t r). split.
  - rewrite <-fmap_take, <-!fmap_drop, <-fmap_app. fold r.
    rewrite (drop_S l x s) by done.
    rewrite fmap_cons. simpl.
    by rewrite fmap_app, fmap_cons, fmap_take, fmap_drop.
  - rewrite <-Permutation_middle, take_drop.
    subst r. rewrite Permutation_middle. by rewrite take_drop_middle.
Qed.

(** Otherwise nothing is removed and [undefined] is inserted. *)
Lemma arrayMove_hole l from to :
  length l ≤ clamp_index (length l) from → None ∈ arrayMove l from to.
Proof.
  intros Hs. unfold arrayMove, splice_out, splice_in.
  rewrite !length_fmap.
  set (s := clamp_index (length l) from) in *.
  rewrite (drop_ge (Some <$> l) s) by (rewrite length_fmap; lia).
  simpl. rewrite elem_of_app, elem_of_cons. auto.
Qed.

Lemma arrayMove_defined l from to l' :
  arrayMove l from to = Some <$> l' →
  clamp_index (length l) from < length l ∧ l' ≡ₚ l.
Proof.
  intros E. destruct (decide (clamp_index (length l) from < length l)) as [Hs|Hs].
  - split; [done|].
    destruct (arrayMove_in_range l from to Hs) as (l'' & E' & Hp).
    rewrite E in E'. apply (inj (fmap Some)) in E'. by subst.
  - pose proof (arrayMove_hole l from to ltac:(lia)) as Hn.
    rewrite E in Hn. apply list_elem_of_fmap in Hn as (? & ? & ?). done.
Qed.
End arrayMove_facts.

(** An index that [findIndex] returned for a non-empty array is inside
    it once the relative-index rule is applied: [-1] names the last
    element. *)
Lemma clamp_findIndex {A} (P : A → Prop) `{∀ x, Decision (P x)} (l : list A) :
  l ≠ [] → clamp_index (length l) (findIndex P l) < length l.
Proof.
  intros Hl. pose proof (findIndex_range P l) as Hr.
  assert (0 < length l) by (destruct l; [done|simpl; lia]).
  unfold clamp_index. destruct (Z.ltb_spec (findIndex P l) 0); lia.
Qed.

(** ** The drag updaters *)

Lemma col_raw k b : col k (raw b) = Some <$> col k b.
Proof. by destruct k. Qed.

Lemma raw_put k v b : raw (put k v b) = put k (Some <$> v) (raw b).
Proof. by destruct k. Qed.

Lemma raw_inj b1 b2 : raw b1 = raw b2 → b1 = b2.
Proof.
  intros E. apply board_eq. intros k.
  apply (f_equal (col k)) in E. rewrite !col_raw in E.
  by apply (inj (fmap Some)) in E.
Qed.

Lemma rendered_raw_inv rb b : rendered rb = Some b → rb = raw b.
Proof.
  intros H. apply board_eq. intros k. rewrite col_raw.
  by apply rendered_Some.
Qed.

(** A rendered reorder permutes its column and leaves the others. *)
Lemma reorderUpdater_rendered k activeIndex overIndex prev b' :
  rendered (reorderUpdater k activeIndex overIndex prev) = Some b' →
  col k b' ≡ₚ col k prev ∧ ∀ k', k' ≠ k → col k' b' = col k' prev.
Proof.
  intros H. pose proof (proj1 (rendered_Some _ _) H) as Hc. split.
  - specialize (Hc k). unfold reorderUpdater in Hc. rewrite col_put in Hc.
    by apply arrayMove_defined in Hc as [_ ?].
  - intros k' Hne. specialize (Hc k'). unfold reorderUpdater in Hc.
    rewrite col_put_ne, col_raw in Hc by done.
    by apply (inj (fmap Some)) in Hc.
Qed.

Lemma dragOverIndex_nonneg overId below overItems :
  (0 ≤ dragOverIndex overId below overItems)%Z.
Proof.
  unfold dragOverIndex. destruct (in_board overId); [lia|].
  destruct (Z.leb_spec 0 (findIndex (λ item, KanbanItem.id item = overId) overItems));
    destruct below; lia.
Qed.

(** [dragOverUpdater] between two columns, written out. *)
Lemma dragOverUpdater_keys activeId overId below ka ko prev :
  dragOverUpdater activeId overId below (key_name ka) (key_name ko) prev =
    let n := Z.to_nat (dragOverIndex overId below (col ko prev)) in
    Ok (put ko
          ((Some <$> take n (col ko prev))
             ++ find (λ item, KanbanItem.id item = activeId) (col ka prev)
             :: (Some <$> drop n (col ko prev)))
          (put ka (Some <$> filter (λ item, KanbanItem.id item ≠ activeId) (col ka prev))
               (raw prev))).
Proof.
  unfold dragOverUpdater. rewrite !own_key_name. simpl.
  pose proof (dragOverIndex_nonneg overId below (col ko prev)).
  by rewrite slice_prefix, slice_suffix, at_findIndex.
Qed.

Lemma dragOverUpdater_rendered activeId overId below ac oc prev rb b' :
  ac ≠ oc →
  dragOverUpdater activeId overId below ac oc prev = Ok rb →
  rendered rb = Some b' →
  ∃ ka ko item,
    ac = key_name ka ∧ oc = key_name ko ∧ ka ≠ ko ∧
    find (λ i, KanbanItem.id i = activeId) (col ka prev) = Some item ∧
    b' = put ko
           (take (Z.to_nat (dragOverIndex overId below (col ko prev))) (col ko prev)
              ++ item
              :: drop (Z.to_nat (dragOverIndex overId below (col ko prev))) (col ko prev))
           (put ka (filter (λ i, KanbanItem.id i ≠ activeId) (col ka prev)) prev).
Proof.
  intros Hne Hu Hr.
  destruct (own_key ac) as [|ka] eqn:Ea;
    [by unfold dragOverUpdater in Hu; rewrite Ea in Hu|].
  destruct (own_key oc) as [|ko] eqn:Eo;
    [by unfold dragOverUpdater in Hu; rewrite Ea, Eo in Hu|].
  apply own_key_Ok in Ea as ->. apply own_key_Ok in Eo as ->.
  assert (ka ≠ ko) by congruence.
  rewrite dragOverUpdater_keys in Hu. simpl in Hu. injection Hu as <-.
  pose proof (proj1 (rendered_Some _ _) Hr ko) as Hko. rewrite col_put in Hko.
  destruct (find _ (col ka prev)) as [item|] eqn:Hf.
  - exists ka, ko, item. repeat split; try done.
    apply raw_inj. rewrite <-(rendered_raw_inv _ _ Hr).
    by rewrite !raw_put, fmap_app, fmap_cons.
  - exfalso. assert (None ∈ Some <$> col ko b') as Hn.
    { rewrite <-Hko, elem_of_app, elem_of_cons. auto. }
    apply list_elem_of_fmap in Hn as (? & ? & ?). done.
Qed.

Lemma take_cons_drop_perm {A} n (l : list A) x :
  take n l ++ x :: drop n l ≡ₚ x :: l.
Proof. by rewrite <-Permutation_middle, take_drop. Qed.

Lemma dragOverUpdater_NoDup activeId overId below ac oc prev rb b' :
  ac ≠ oc → NoDupBoard prev →
  dragOverUpdater activeId overId below ac oc prev = Ok rb →
  rendered rb = Some b' → NoDupBoard b'.
Proof.
  intros Hne Hnd Hu Hr.
  destruct (dragOverUpdater_rendered _ _ _ _ _ _ _ _ Hne Hu Hr)
    as (ka & ko & item & -> & -> & Hk & Hf & ->).
  apply find_Some in Hf as [Hin <-].
  apply NoDupBoard_move; [done..|apply take_cons_drop_perm].
Qed.

(** ** Every handler is safe *)

Lemma total_safe (f : BoardState → BoardState) b rb b' :
  NoDupBoard (f b) → total f b = Ok rb → rendered rb = Some b' → NoDupBoard b'.
Proof.
  unfold total. intros Hf [= <-] Hr. rewrite rendered_raw in Hr. by injection Hr as <-.
Qed.

Lemma partial_safe (f : BoardState → Exc BoardState) b rb b' :
  (∀ b1, f b = Ok b1 → NoDupBoard b1) →
  partial f b = Ok rb → rendered rb = Some b' → NoDupBoard b'.
Proof.
  unfold partial. intros Hf Hp Hr. destruct (f b) as [|b1]; [done|].
  simpl in Hp. injection Hp as <-. rewrite rendered_raw in Hr.
  injection Hr as <-. by apply Hf.
Qed.

Lemma insertUpdater_NoDup new prev b : insertUpdater new prev = Ok b → NoDupBoard b.
Proof.
  unfold insertUpdater. destruct (own_key _); [done|]. simpl.
  intros [= <-]. apply ensureUniqueItems_NoDup.
Qed.

Lemma updateUpdater_NoDup new prev b : updateUpdater new prev = Ok b → NoDupBoard b.
Proof.
  unfold updateUpdater. destruct (own_key _); [done|]. simpl.
  intros [= <-]. apply ensureUniqueItems_NoDup.
Qed.

Lemma moveUpdater_NoDup activeId activeItem ka oc prev b :
  moveUpdater activeId activeItem ka oc prev = Ok b → NoDupBoard b.
Proof.
  unfold moveUpdater. destruct (own_key _); [done|]. simpl.
  intros [= <-]. apply ensureUniqueItems_NoDup.
Qed.

Lemma persistColumnPositions_safe seen c k :
  Safe k → Safe (persistColumnPositions seen c k).
Proof.
  intros Hk. unfold persistColumnPositions.
  destruct (as_key c); [|done]. destruct (col _ seen); [done|]. by intros r.
Qed.

Lemma updateCardColumnAndPositions_safe seen cardId newCol oldCol :
  Safe (updateCardColumnAndPositions seen cardId newCol oldCol).
Proof.
  intros [data [message|]|]; simpl; try done.
  destruct (positionWrites seen newCol ++ positionWrites seen oldCol); [done|].
  by intros r.
Qed.

Lemma fetchData_safe : Safe fetchData.
Proof.
  intros [columns e1|]; [|done]. intros [cards e2|]; [|done].
  unfold fetchData_loaded.
  destruct (buildNext _ _); [done|]. simpl. split; [|done].
  intros b rb b' _ [= <-] Hr. rewrite rendered_raw in Hr. injection Hr as <-.
  apply ensureUniqueItems_NoDup.
Qed.

Lemma onChange_safe payload : Safe (onChange payload).
Proof.
  destruct payload as [[new|]|[new|]|[old|]|]; simpl; try done.
  - split; [|done]. intros b rb b' _. apply partial_safe, insertUpdater_NoDup.
  - split; [done|]. split; [|done].
    intros b rb b' _. apply partial_safe, updateUpdater_NoDup.
  - split; [|done]. intros b rb b' _. apply total_safe, ensureUniqueItems_NoDup.
Qed.

Lemma handleAdd_safe seen newTitle newDesc hrefs newColumn :
  Safe (handleAdd seen newTitle newDesc hrefs newColumn).
Proof.
  intros [[data|] [message|]|]; simpl; try done.
  split; [|split; [|done]].
  - intros b rb b' _. apply total_safe, ensureUniqueItems_NoDup.
  - by apply persistColumnPositions_safe.
Qed.

Lemma handleDelete_safe seen c id : Safe (handleDelete seen c id).
Proof.
  intros [data [message|]|]; simpl; try done. split.
  - intros b rb b' _. apply total_safe, ensureUniqueItems_NoDup.
  - by apply persistColumnPositions_safe.
Qed.

Lemma handleEdit_safe c updated : Safe (handleEdit c updated).
Proof.
  intros [data [message|]|]; simpl; try done. split; [|done].
  intros b rb b' _. apply total_safe, ensureUniqueItems_NoDup.
Qed.

Lemma handleDragOver_safe seen activeId over : Safe (handleDragOver seen activeId over).
Proof.
  unfold handleDragOver. destruct over as [[overId below]|]; [|done].
  destruct (findContainer seen activeId) as [ac|]; [|done].
  destruct (findContainer seen overId) as [oc|]; [|done].
  case_decide; [|done]. simpl. split; [|done].
  intros b rb b' Hb Hu Hr. by eapply dragOverUpdater_NoDup.
Qed.

Lemma handleDragEnd_safe seen activeId over : Safe (handleDragEnd seen activeId over).
Proof.
  unfold handleDragEnd. destruct over as [overId|]; [|done].
  destruct (findContainer seen activeId) as [ac|]; [|done].
  destruct (findContainer seen overId) as [oc|]; [|done].
  case_decide; destruct (own_key ac) as [|ka]; try done.
  - case_decide; [|done]. simpl. split; [|split; [|done]].
    + intros b rb b' Hb [= <-] Hr.
      apply reorderUpdater_rendered in Hr as [Hp Ho].
      revert Hb. apply NoDupBoard_perm. intros k.
      destruct (decide (k = ka)) as [->|?]; [done|]. by rewrite Ho.
    + by apply persistColumnPositions_safe.
  - destruct (find _ _) as [activeItem|]; [|done]. simpl.
    split; [|split; [|done]].
    + intros b rb b' _. apply partial_safe, moveUpdater_NoDup.
    + apply updateCardColumnAndPositions_safe.
Qed.

Lemma Handler_safe t : Handler t → Safe t.
Proof.
  destruct 1;
    auto using fetchData_safe, onChange_safe, handleAdd_safe, handleDelete_safe,
      handleEdit_safe, handleDragOver_safe, handleDragEnd_safe.
Qed.

(** Running a safe task keeps the invariant, and what it leaves behind
    is safe again. *)
Lemma run_safe t st st' new :
  Safe t → NoDupBoard (board st) → run t st = Some (st', new) →
  NoDupBoard (board st') ∧ Forall SafeSuspended new.
Proof.
  revert st st' new.
  induction t as [| |updater k IH|message k IH|v k IH|cardId k IH|cardId k IH
                  |cardId yes IHy no IHn|R call k IH|callee IHc k IH
                  |ms body IHb k IH];
    intros st st' new Hs Hb Hr; simpl in *.
  - injection Hr as <- <-. auto.
  - injection Hr as <- <-. auto.
  - destruct Hs as [Hu Hk]. destruct (updater (board st)) as [|rb] eqn:Eu; [done|].
    destruct (rendered rb) as [b'|] eqn:Er; [|done]. simpl in Hr.
    eapply IH; [done| |done]. simpl. eauto.
  - eapply IH; [done| |done]. done.
  - eapply IH; [done| |done]. done.
  - eapply IH; [done| |done]. done.
  - eapply IH; [done| |done]. done.
  - destruct Hs. case_decide; eauto.
  - injection Hr as <- <-. split; [done|]. constructor; [|constructor]. done.
  - destruct Hs as [Hc Hk].
    destruct (run callee st) as [[st1 s1]|] eqn:E1; [|done]. simpl in Hr.
    destruct (run k st1) as [[st2 s2]|] eqn:E2; [|done]. simpl in Hr.
    injection Hr as <- <-.
    destruct (IHc _ _ _ Hc Hb E1) as [Hb1 Hs1].
    destruct (IH _ _ _ Hk Hb1 E2) as [Hb2 Hs2].
    split; [done|]. by apply Forall_app.
  - destruct Hs as [Hbody Hk].
    destruct (run k st) as [[st1 s1]|] eqn:E1; [|done]. simpl in Hr.
    injection Hr as <- <-.
    destruct (IH _ _ _ Hk Hb E1) as [Hb1 Hs1].
    split; [done|]. by constructor.
Qed.

Lemma step_invariant s s' : step s s' → Invariant s → Invariant s'.
Proof.
  intros Hstep [Hb Hp]. destruct Hstep as
    [s t st' new Ht Hr
    |s R call k r before after st' new Hpend Hr
    |s ms body before after st' new Hpend Hr].
  - destruct (run_safe _ _ _ _ (Handler_safe _ Ht) Hb Hr) as [Hb' Hn].
    split; [done|]. simpl. by apply Forall_app.
  - rewrite Hpend in Hp. apply Forall_app in Hp as [Hbefore Hrest].
    apply Forall_cons in Hrest as [Hk Hafter].
    destruct (run_safe _ _ _ _ (Hk r) Hb Hr) as [Hb' Hn].
    split; [done|]. simpl. rewrite !Forall_app. auto.
  - rewrite Hpend in Hp. apply Forall_app in Hp as [Hbefore Hrest].
    apply Forall_cons in Hrest as [Hk Hafter].
    destruct (run_safe _ _ _ _ Hk Hb Hr) as [Hb' Hn].
    split; [done|]. simpl. rewrite !Forall_app. auto.
Qed.

Lemma reachable_invariant s : reachable s → Invariant s.
Proof.
  unfold reachable. intros H.
  assert (Invariant initialSystem) as H0.
  { split; [apply NoDup_nil_2|constructor]. }
  revert H0. induction H; eauto using step_invariant.
Qed.

(** ** Running the handlers *)

Lemma run_persistColumnPositions seen c st :
  run (persistColumnPositions seen (key_name c) Return) st
  = Some (st, persistSuspended seen c).
Proof.
  unfold persistColumnPositions, persistSuspended. rewrite as_key_name.
  by destruct (col c seen).
Qed.

Lemma run_total f k st :
  run (SetBoard (total f) k) st = run k (with_board (f (board st)) st).
Proof. simpl. unfold total. by rewrite rendered_raw. Qed.

Lemma run_partial f k st b :
  f (board st) = Ok b →
  run (SetBoard (partial f) k) st = run k (with_board b st).
Proof. intros E. simpl. unfold partial. rewrite E. simpl. by rewrite rendered_raw. Qed.

(** The rows of a position pass: the identities of the column in
    order, numbered from 0. *)
Lemma positionRows_ids items :
  (positionRows items).*1 = ids items ∧
  (positionRows items).*2 = seq 0 (length items).
Proof.
  unfold positionRows. rewrite !fmap_imap. split.
  - by rewrite (imap_const KanbanItem.id).
  - rewrite <-(list_fmap_id (seq 0 (length items))). by rewrite <-imap_seq_0.
Qed.

(** What a final [persistColumnPositions(c)] leaves suspended, by its
    rows. *)
Lemma persistSuspended_rows seen c :
  persistSuspended seen c
  = match positionRows (col c seen) with
    | [] => []
    | rows => [Blocked (UpdatePositions rows) (λ _, Return)]
    end.
Proof. unfold persistSuspended. by destruct (col c seen). Qed.

(** ** The claims *)

(** C1.  No-duplication invariant: in every state that the component
    can reach from the empty board, by any interleaving of handler
    invocations (initial load, add, delete, edit, drag-over, drag-end
    within or across columns, ingestion of insert, update and delete
    events), of replies of the remote store and of timers, every column
    holds each card identity at most once and no identity occurs in two
    columns. *)
Theorem C1_no_duplication (s : System) :
  reachable s →
  (∀ k, NoDup (ids (col k (board (state s))))) ∧
  (∀ k1 k2 x,
     x ∈ ids (col k1 (board (state s))) →
     x ∈ ids (col k2 (board (state s))) → k1 = k2).
Proof. intros H. apply NoDupBoard_alt, reachable_invariant, H. Qed.

Lemma C1_no_duplication_witness :
  reachable sample_system ∧
  (∀ k, NoDup (ids (col k (board (state sample_system))))) ∧
  (∀ k1 k2 x,
     x ∈ ids (col k1 (board (state sample_system))) →
     x ∈ ids (col k2 (board (state sample_system))) → k1 = k2).
Proof.
  assert (reachable sample_system) as H.
  { apply rtc_l with sample_inserted.
    - apply (step_handler initialSystem _ _ [] (H_onChange (INSERT (Some sample_row)))).
      vm_compute. reflexivity.
    - apply rtc_once.
      apply (step_handler sample_inserted _ _ []
               (H_handleDragOver (board (state sample_inserted)) "7"
                                 (Some ("done", false)))).
      vm_compute. reflexivity. }
  split; [exact H|]. apply (C1_no_duplication sample_system H).
Defined.

(** *** Container resolution *)

Lemma findContainer_key b k : findContainer b (key_name k) = Some (key_name k).
Proof. unfold findContainer. by rewrite in_board_name. Qed.

Lemma findContainer_scan b id :
  in_board id = false →
  match findContainer b id with
  | Some c => ∃ k, c = key_name k ∧ id ∈ ids (col k b)
  | None => id ∉ all_ids b
  end.
Proof.
  intros Hin. unfold findContainer. rewrite Hin.
  destruct (find _ (entries b)) as [[k items]|] eqn:Hf; simpl.
  - apply find_Some in Hf as [He Hi]. simpl in Hi.
    apply find_is_Some in Hi as (i & Hi & <-).
    unfold entries in He. apply list_elem_of_fmap in He as (k' & [= -> ->] & _).
    exists k'. split; [done|]. apply list_elem_of_fmap. eauto.
  - rewrite find_None in Hf. rewrite elem_of_all_ids.
    intros (k & (i & -> & Hi)%list_elem_of_fmap).
    apply (Hf (k, col k b)).
    + unfold entries. apply list_elem_of_fmap. exists k. split; [done|].
      destruct k; set_solver.
    + simpl. apply find_is_Some. eauto.
Qed.

(** C9.  Container resolution.  The claim holds of column keys
    ([findContainer_key]) and of unknown ids that are not property
    names of [Object.prototype] ([findContainer_scan]); it fails for
    an inherited name: [id in board] is true of ["toString"] on every
    board, so [findContainer] returns the string ["toString"], which is
    neither a column key nor the id of a card, instead of [undefined]. *)
Theorem C9_inherited_name_resolves (b : BoardState) :
  as_key "toString" = None ∧
  findContainer b "toString" = Some "toString" ∧
  findContainer initialBoard "toString" ≠ None ∧
  "toString" ∉ all_ids initialBoard.
Proof.
  split; [done|]. split; [done|]. split; [done|].
  by intros ?%elem_of_nil.
Qed.

(** C8.  When the remote create of [handleAdd] fails, whether the
    store answers with an error or the request rejects, the handler
    ends without touching the state: the board is unchanged, and so is
    [error], which no branch of [handleAdd] ever sets. *)
Theorem C8_add_failure_is_silent seen newTitle newDesc hrefs newColumn st :
  ∃ (call : Remote CardRow.t) (k : Reply CardRow.t → Task),
    run (handleAdd seen newTitle newDesc hrefs newColumn) st
      = Some (st, [Blocked call k]) ∧
    ∀ st1 data message,
      run (k (Resolved data (Some message))) st1 = Some (st1, []) ∧
      run (k (Resolved None None)) st1 = Some (st1, []) ∧
      run (k Rejected) st1 = Some (st1, []).
Proof.
  eexists _, _. split; [reflexivity|]. intros st1 data message.
  split; [by destruct data|]. done.
Qed.

(** C10.  Cross-column drag-over with the dragged card present in its
    resolved source column [ka]: the insertion index is never negative
    and is [overItems.length + 1], beyond the end, when the pointer is
    over the column itself; whatever the index, the update renders, the
    target column becomes its previous elements with the dragged card
    inserted once (at the index, or at the end when the index is beyond
    it), no entry is [undefined], and the source column loses the
    card. *)
Theorem C10_drag_over_target_well_formed st activeId overId below ka ko item :
  findContainer (board st) activeId = Some (key_name ka) →
  findContainer (board st) overId = Some (key_name ko) →
  ka ≠ ko →
  find (λ i, KanbanItem.id i = activeId) (col ka (board st)) = Some item →
  let overItems := col ko (board st) in
  let newIndex := dragOverIndex overId below overItems in
  ∃ b',
    dragOverUpdater activeId overId below (key_name ka) (key_name ko) (board st)
      = Ok (raw b') ∧
    run (handleDragOver (board st) activeId (Some (overId, below))) st
      = Some (with_board b' st, []) ∧
    (0 ≤ newIndex)%Z ∧
    (in_board overId = true → newIndex = (Z.of_nat (length overItems) + 1)%Z) ∧
    col ko b' = take (Z.to_nat newIndex) overItems
                  ++ item :: drop (Z.to_nat newIndex) overItems ∧
    ((Z.of_nat (length overItems) ≤ newIndex)%Z → col ko b' = overItems ++ [item]) ∧
    col ko b' ≡ₚ item :: overItems ∧
    col ka b' = filter (λ i, KanbanItem.id i ≠ activeId) (col ka (board st)) ∧
    (∀ k, k ≠ ka → k ≠ ko → col k b' = col k (board st)).
Proof.
  intros Ha Ho Hne Hf overItems newIndex.
  set (b' := put ko (take (Z.to_nat newIndex) overItems
                       ++ item :: drop (Z.to_nat newIndex) overItems)
               (put ka (filter (λ i, KanbanItem.id i ≠ activeId) (col ka (board st)))
                    (board st))).
  assert (dragOverUpdater activeId overId below (key_name ka) (key_name ko) (board st)
          = Ok (raw b')) as Hu.
  { rewrite dragOverUpdater_keys. simpl. rewrite Hf. subst b'.
    by rewrite !raw_put, fmap_app, fmap_cons. }
  exists b'. split; [done|]. split.
  { unfold handleDragOver. rewrite Ha, Ho.
    rewrite decide_True by (intros ?%key_name_inj; done).
    simpl. rewrite Hu. simpl. by rewrite rendered_raw. }
  split; [apply dragOverIndex_nonneg|]. split.
  { intros Hin. subst newIndex. unfold dragOverIndex. by rewrite Hin. }
  split; [subst b'; by rewrite col_put|]. split.
  { intros Hge. subst b'. rewrite col_put.
    rewrite take_ge, drop_ge by lia. done. }
  split; [subst b'; rewrite col_put; apply take_cons_drop_perm|]. split.
  - subst b'. rewrite col_put_ne, col_put by done. done.
  - intros k Hka Hko. subst b'. by rewrite !col_put_ne.
Qed.

(** C6.  Drag-end with source and target resolved to the same column
    [k]: the handler's update renders, the column is a permutation of
    what it was (so the multiset of its card identities is unchanged),
    and every other column is unchanged. *)
Theorem C6_reorder_is_permutation st activeId overId k :
  findContainer (board st) activeId = Some (key_name k) →
  findContainer (board st) overId = Some (key_name k) →
  ∃ st' new,
    run (handleDragEnd (board st) activeId (Some overId)) st = Some (st', new) ∧
    col k (board st') ≡ₚ col k (board st) ∧
    ids (col k (board st')) ≡ₚ ids (col k (board st)) ∧
    (∀ k', k' ≠ k → col k' (board st') = col k' (board st)).
Proof.
  intros Ha Ho. unfold handleDragEnd. rewrite Ha, Ho.
  rewrite decide_True by done. rewrite own_key_name.
  set (activeIndex := findIndex _ (col k (board st))).
  set (overIndex := findIndex (λ item, KanbanItem.id item = overId) _).
  cbv zeta. case_decide as Hidx; simpl.
  - assert (col k (board st) ≠ []) as Hne.
    { intros E. apply Hidx. subst activeIndex overIndex. by rewrite E. }
    destruct (arrayMove_in_range (col k (board st)) activeIndex overIndex)
      as (l' & Hm & Hp); [by apply clamp_findIndex|].
    unfold reorderUpdater. rewrite Hm, <-raw_put, rendered_raw. simpl.
    rewrite run_persistColumnPositions. simpl.
    eexists _, _. split; [reflexivity|]. simpl. rewrite col_put.
    split; [done|]. split; [unfold ids; by rewrite Hp|].
    intros k' ?. by rewrite col_put_ne.
  - eexists _, _. split; [reflexivity|]. done.
Qed.

Lemma filter_remove_one (l : list KanbanItem.t) item :
  NoDup (ids l) → item ∈ l →
  l ≡ₚ item :: filter (λ i, KanbanItem.id i ≠ KanbanItem.id item) l.
Proof.
  induction l as [|j l IH]; intros Hnd Hin; [by apply elem_of_nil in Hin|].
  unfold ids in Hnd. rewrite fmap_cons in Hnd. apply NoDup_cons in Hnd as [Hj Hnd].
  apply elem_of_cons in Hin as [->|Hin].
  - rewrite filter_cons_False by naive_solver.
    rewrite filter_absent; [done|]. done.
  - assert (KanbanItem.id j ≠ KanbanItem.id item) as Hne.
    { intros E. apply Hj. rewrite E. apply list_elem_of_fmap. eauto. }
    rewrite filter_cons_True by done.
    rewrite (IH Hnd Hin) at 1. apply Permutation_swap.
Qed.

Lemma filter_none cardId (l : list KanbanItem.t) :
  cardId ∉ ids l → filter (λ item, KanbanItem.id item = cardId) l = [].
Proof.
  induction l as [|j l IH]; intros Hx; [done|].
  unfold ids in Hx. rewrite fmap_cons, not_elem_of_cons in Hx. destruct Hx.
  rewrite filter_cons_False by naive_solver. by apply IH.
Qed.

(** C5.  Drag-end across columns on a board that satisfies the board
    invariant, the dragged card being in its resolved source column
    [ka] and the target [ko] a different column: the card's identity
    leaves the source column, the card is appended to the target
    column and occurs there exactly once, every other column is
    unchanged, the identities of source and target together are the
    same multiset as before, and the identity is marked as written
    locally. *)
Theorem C5_move_across_columns st activeId overId ka ko activeItem :
  NoDupBoard (board st) →
  findContainer (board st) activeId = Some (key_name ka) →
  findContainer (board st) overId = Some (key_name ko) →
  ka ≠ ko →
  find (λ item, KanbanItem.id item = activeId) (col ka (board st)) = Some activeItem →
  ∃ st' new,
    run (handleDragEnd (board st) activeId (Some overId)) st = Some (st', new) ∧
    col ka (board st')
      = filter (λ i, KanbanItem.id i ≠ activeId) (col ka (board st)) ∧
    (activeId ∉ ids (col ka (board st'))) ∧
    col ko (board st') = col ko (board st) ++ [activeItem] ∧
    filter (λ i, KanbanItem.id i = activeId) (col ko (board st')) = [activeItem] ∧
    (∀ k, k ≠ ka → k ≠ ko → col k (board st') = col k (board st)) ∧
    (ids (col ka (board st')) ++ ids (col ko (board st')))
      ≡ₚ (ids (col ka (board st)) ++ ids (col ko (board st))) ∧
    activeId ∈ localUpdate st'.
Proof.
  intros Hnd Ha Ho Hne Hf.
  pose proof (find_Some _ _ _ Hf) as [Hin Hid].
  set (b := board st) in *.
  set (nb := put ka (filter (λ i, KanbanItem.id i ≠ activeId) (col ka b)) b).
  set (b' := put ko (col ko b ++ [activeItem]) nb).
  assert (NoDupBoard b') as Hb'.
  { subst b' nb. rewrite <-Hid. apply NoDupBoard_move; try done.
    by rewrite Permutation_app_comm. }
  assert (moveUpdater activeId activeItem ka (key_name ko) b = Ok b') as Hu.
  { unfold moveUpdater. rewrite own_key_name. simpl. fold nb.
    replace (col ko nb) with (col ko b) by (subst nb; by rewrite col_put_ne).
    fold b'. by rewrite ensureUniqueItems_id. }
  pose proof (proj1 (NoDupBoard_alt _) Hnd) as [Hcol Hacross].
  assert (activeId ∉ ids (col ko b)) as Hko.
  { intros Hx. apply Hne. apply (Hacross _ _ activeId); [|done].
    rewrite <-Hid. apply list_elem_of_fmap. eauto. }
  unfold handleDragEnd. rewrite Ha, Ho.
  rewrite decide_False by (intros ?%key_name_inj; done).
  rewrite own_key_name. fold b. rewrite Hf.
  rewrite (run_partial _ _ _ b') by done.
  eexists _, _. split; [reflexivity|]. cbn [board with_board with_localUpdate fst].
  split; [subst b' nb; by rewrite col_put_ne, col_put|]. split.
  { subst b' nb. rewrite col_put_ne, col_put by done.
    intros (i & E & Hi)%list_elem_of_fmap. apply list_elem_of_filter in Hi.
    naive_solver. }
  split; [subst b'; by rewrite col_put|]. split.
  { subst b'. rewrite col_put, filter_app, filter_none by done.
    by rewrite filter_cons_True, filter_nil. }
  split; [intros k ? ?; subst b' nb; by rewrite !col_put_ne|]. split.
  - subst b' nb. rewrite col_put, col_put_ne, col_put by done.
    unfold ids. rewrite fmap_app. cbn [fmap list_fmap].
    rewrite (filter_remove_one (col ka b) activeItem) at 2 by done.
    rewrite Hid, fmap_cons. simpl.
    rewrite app_assoc, <-Permutation_cons_append. by rewrite <-Hid at 1.
  - cbn [localUpdate]. set_solver.
Qed.

Lemma toItem_id row : KanbanItem.id (toItem row) = CardRow.id row.
Proof. done. Qed.



(** *** Prepending one card and de-duplicating *)

Lemma elem_of_ids_before_put k' k v b y :
  y ∈ ids (before k' (put k v b)) ↔
    (∃ k0, k0 ∈ earlier k' ∧ k0 ≠ k ∧ y ∈ ids (col k0 b)) ∨
    (k ∈ earlier k' ∧ y ∈ ids v).
Proof.
  rewrite elem_of_ids_before. split.
  - intros (k0 & Hk0 & Hy). destruct (decide (k = k0)) as [<-|Hne].
    + rewrite col_put in Hy. auto.
    + rewrite col_put_ne in Hy by done. left. exists k0. auto.
  - intros [(k0 & Hk0 & Hne & Hy)|[Hk Hy]].
    + exists k0. split; [done|]. by rewrite col_put_ne.
    + exists k. split; [done|]. by rewrite col_put.
Qed.

Lemma ensureUniqueItems_prepend b k item k' :
  NoDupBoard b →
  col k' (ensureUniqueItems (put k (item :: col k b) b)) =
    if decide (k' = k) then
      if decide (KanbanItem.id item ∈ ids (before k b)) then col k b
      else item :: filter (λ i, KanbanItem.id i ≠ KanbanItem.id item) (col k b)
    else if decide (k ∈ earlier k') then
      filter (λ i, KanbanItem.id i ≠ KanbanItem.id item) (col k' b)
    else col k' b.
Proof.
  intros Hnd. pose proof (proj1 (NoDupBoard_alt _) Hnd) as [Hcol Hacross].
  assert (∀ k1 k2 i, i ∈ col k1 b → k2 ∈ earlier k1 →
            KanbanItem.id i ∉ ids (col k2 b)) as Hearlier.
  { intros k1 k2 i Hi Hk Hx. assert (k2 = k1) as ->.
    { apply (Hacross _ _ _ Hx). apply list_elem_of_fmap. eauto. }
    by apply earlier_irrefl in Hk. }
  rewrite col_ensureUniqueItems.
  destruct (decide (k' = k)) as [->|Hne].
  - rewrite col_put.
    assert (∀ y, y ∈ ids (before k (put k (item :: col k b) b)) ↔
                 y ∈ ids (before k b)) as Hbefore.
    { intros y. rewrite elem_of_ids_before_put, elem_of_ids_before.
      pose proof (earlier_irrefl k). split.
      - intros [(k0 & ? & ? & ?)|[? _]]; [eauto|done].
      - intros (k0 & ? & ?). left. exists k0.
        split; [done|]. split; [by intros ->|done]. }
    simpl. case_decide as Hx; rewrite elem_of_list_to_set, Hbefore in Hx.
    + rewrite decide_True by done.
      rewrite filterSeen_filter by apply Hcol. apply filter_all.
      intros i Hi. rewrite elem_of_list_to_set, Hbefore.
      intros (k0 & ? & ?)%elem_of_ids_before. by eapply Hearlier.
    + rewrite decide_False by done.
      pose proof (filterSeen_filter
        ({[KanbanItem.id item]} ∪ list_to_set (ids (before k (put k (item :: col k b) b))))
        (col k b) (Hcol k)) as Hfs.
      destruct (filterSeen _ (col k b)) as [kept s]. simpl in *. subst kept.
      f_equal. apply filter_ext_elem. intros i Hi.
      rewrite elem_of_union, elem_of_singleton, elem_of_list_to_set, Hbefore.
      split; [tauto|]. intros Hid [?|(k0 & ? & ?)%elem_of_ids_before]; [done|].
      by eapply Hearlier.
  - rewrite col_put_ne by done.
    rewrite filterSeen_filter by apply Hcol.
    destruct (decide (k ∈ earlier k')) as [Hk|Hk].
    + apply filter_ext_elem. intros i Hi.
      rewrite elem_of_list_to_set, elem_of_ids_before_put. split.
      * intros Hn E. apply Hn. right. split; [done|].
        unfold ids. rewrite fmap_cons, elem_of_cons. by left.
      * intros Hid [(k0 & ? & ? & ?)|[_ Hin]]; [by eapply Hearlier|].
        unfold ids in Hin. rewrite fmap_cons, elem_of_cons in Hin.
        destruct Hin as [?|Hin]; [done|].
        assert (k = k'); [|done].
        apply (Hacross _ _ _ Hin). apply list_elem_of_fmap. eauto.
    + apply filter_all. intros i Hi.
      rewrite elem_of_list_to_set, elem_of_ids_before_put.
      intros [(k0 & ? & ? & ?)|[? _]]; [by eapply Hearlier|done].
Qed.

Lemma elem_of_all_ids_put k v b y :
  y ∈ all_ids (put k v b) ↔
    y ∈ ids v ∨ ∃ k', k' ≠ k ∧ y ∈ ids (col k' b).
Proof.
  rewrite elem_of_all_ids. split.
  - intros (k' & Hy). destruct (decide (k = k')) as [<-|Hne].
    + rewrite col_put in Hy. auto.
    + rewrite col_put_ne in Hy by done. right. exists k'. auto.
  - intros [Hy|(k' & Hne & Hy)].
    + exists k. by rewrite col_put.
    + exists k'. by rewrite col_put_ne.
Qed.




(** *** The initial load *)

Lemma foldl_put_nil (columns : list ColumnKey) (acc : BoardState) :
  (∀ k, col k acc = []) →
  ∀ k, col k (foldl (λ next colKey, put colKey [] next) acc columns) = [].
Proof.
  revert acc. induction columns as [|c columns IH]; intros acc Hacc; [done|].
  simpl. apply IH. intros k. destruct (decide (c = k)) as [<-|?].
  - by rewrite col_put.
  - by rewrite col_put_ne.
Qed.

Lemma own_key_as_key s k : as_key s = Some k → own_key s = Ok k.
Proof. unfold own_key. by intros ->. Qed.

(** With every declared column valid the two loops succeed, and each
    column of [next] holds the cards declared for it, in fetch order. *)
Lemma buildNext_Ok columns cards :
  (∀ c, c ∈ cards → is_Some (as_key (declaredColumn c))) →
  ∃ next,
    buildNext columns cards = Ok next ∧
    ∀ k, col k next
         = toItem <$> filter (λ c, as_key (declaredColumn c) = Some k) cards.
Proof.
  intros Hvalid. unfold buildNext.
  set (next0 := foldl _ emptyBoard columns).
  assert (∀ k, col k next0 = []) as H0 by (apply foldl_put_nil; by intros []).
  assert (∀ acc : BoardState,
            ∃ next,
              foldl (λ acc c,
                       next ←! acc;
                       colKey ←! own_key (declaredColumn c);
                       Ok (put colKey (col colKey next ++ [toItem c]) next))
                    (Ok acc) cards = Ok next ∧
              ∀ k, col k next
                   = col k acc
                       ++ (toItem <$> filter (λ c, as_key (declaredColumn c) = Some k)
                                             cards)) as Hfold.
  { clear next0 H0. induction cards as [|c cards IH]; intros acc.
    - exists acc. split; [done|]. intros k. by rewrite filter_nil, app_nil_r.
    - destruct (Hvalid c ltac:(left)) as [kc Hkc].
      destruct (IH ltac:(intros; apply Hvalid; by right)
                   (put kc (col kc acc ++ [toItem c]) acc)) as (next & Hn & Hcols).
      exists next. split.
      + cbn [foldl exc_bind]. rewrite (own_key_as_key _ _ Hkc). cbn [exc_bind]. done.
      + intros k. rewrite Hcols, filter_cons.
        destruct (decide (kc = k)) as [<-|Hne].
        * rewrite col_put, decide_True by done.
          by rewrite fmap_cons, <-app_assoc.
        * rewrite col_put_ne by done. rewrite decide_False by congruence. done. }
  destruct (Hfold next0) as (next & Hn & Hcols).
  exists next. split; [done|]. intros k. by rewrite Hcols, H0.
Qed.

Lemma NoDup_fmap_inj_on {A B} (f : A → B) (l : list A) x y :
  NoDup (f <$> l) → x ∈ l → y ∈ l → f x = f y → x = y.
Proof.
  induction l as [|z l IH]; [by intros _ ?%elem_of_nil|].
  rewrite fmap_cons, NoDup_cons, !elem_of_cons.
  intros [Hz Hnd] [->|Hx] [->|Hy] E; [done| | |by apply IH].
  - exfalso. apply Hz. rewrite E. apply list_elem_of_fmap. eauto.
  - exfalso. apply Hz. rewrite <-E. apply list_elem_of_fmap. eauto.
Qed.


(** What [fetchData] sets as board once both queries have resolved
    with valid column keys. *)
Lemma fetchData_loaded_board columns cards st :
  (∀ c, c ∈ cards → is_Some (as_key (declaredColumn c))) →
  (∀ c, CardRow.column_key c = None → declaredColumn c = "todo") ∧
  ∃ b,
    run (fetchData_loaded columns (Some cards)) st
      = Some (with_loading false (with_board b st), []) ∧
    NoDupBoard b ∧
    (∀ k item, item ∈ col k b →
       ∃ c, c ∈ cards ∧ item = toItem c ∧ as_key (declaredColumn c) = Some k) ∧
    (∀ c, c ∈ cards → CardRow.id c ∈ all_ids b) ∧
    (NoDup (CardRow.id <$> cards) →
       ∀ k, col k b
            = toItem <$> filter (λ c, as_key (declaredColumn c) = Some k) cards).
Proof.
  intros Hvalid. split; [by intros c; unfold declaredColumn; intros ->|].
  destruct (buildNext_Ok (default [] columns) cards Hvalid) as (next & Hn & Hcols).
  assert (∀ k item, item ∈ col k next →
            ∃ c, c ∈ cards ∧ item = toItem c ∧ as_key (declaredColumn c) = Some k)
    as Hfrom.
  { intros k item. rewrite Hcols.
    intros (c & -> & Hc)%list_elem_of_fmap. apply list_elem_of_filter in Hc.
    naive_solver. }
  exists (ensureUniqueItems next). split.
  { unfold fetchData_loaded. simpl. rewrite Hn. simpl. by rewrite rendered_raw. }
  split; [apply ensureUniqueItems_NoDup|]. split.
  { intros k item [Hi _]%ensureUniqueItems_elem. by apply Hfrom. }
  split.
  { intros c Hc. apply ensureUniqueItems_all_ids, elem_of_all_ids.
    destruct (Hvalid c Hc) as [k Hk]. exists k. rewrite Hcols.
    apply list_elem_of_fmap. exists (toItem c). split; [done|].
    apply list_elem_of_fmap. exists c. split; [done|].
    apply list_elem_of_filter. done. }
  intros Hnd k. rewrite ensureUniqueItems_id; [by rewrite Hcols|].
  assert (∀ k x, x ∈ ids (col k next) →
            ∃ c, c ∈ cards ∧ CardRow.id c = x ∧ as_key (declaredColumn c) = Some k)
    as Hids.
  { intros k' x (i & -> & Hi)%list_elem_of_fmap.
    destruct (Hfrom _ _ Hi) as (c & ? & -> & ?). eauto. }
  apply NoDupBoard_alt. split.
  - intros k'. rewrite Hcols. unfold ids. rewrite <-list_fmap_compose.
    eapply sublist_NoDup; [exact Hnd|]. apply fmap_sublist, sublist_filter.
  - intros k1 k2 x (c1 & H1 & E1 & K1)%Hids (c2 & H2 & E2 & K2)%Hids.
    assert (c1 = c2) as -> by (eapply NoDup_fmap_inj_on; [exact Hnd|done..|congruence]).
    congruence.
Qed.


(** ** Instances of the claims on concrete boards *)





Lemma C5_move_across_columns_witness :
  ∃ st' new,
    run (handleDragEnd (board sample_state) "1" (Some "doing")) sample_state
      = Some (st', new) ∧
    col todo (board st') = [] ∧
    col doing (board st') = [sample_item] ∧
    "1" ∈ localUpdate st'.
Proof.
  destruct (C5_move_across_columns sample_state "1" "doing" todo doing sample_item)
    as (st' & new & Hr & Ha & _ & Ho & _ & _ & _ & Hm).
  - compute_done.
  - reflexivity.
  - reflexivity.
  - discriminate.
  - reflexivity.
  - exists st', new. split; [exact Hr|]. split; [exact Ha|]. split; [exact Ho|exact Hm].
Defined.

Lemma C6_reorder_is_permutation_witness :
  ∃ st' new,
    run (handleDragEnd (board two_cards) "1" (Some "2")) two_cards = Some (st', new) ∧
    col todo (board st') ≡ₚ [sample_item; second_item] ∧
    col doing (board st') = [].
Proof.
  destruct (C6_reorder_is_permutation two_cards "1" "2" todo)
    as (st' & new & Hr & Hp & _ & Ho).
  - reflexivity.
  - reflexivity.
  - exists st', new. split; [exact Hr|]. split; [exact Hp|].
    apply (Ho doing). discriminate.
Defined.


Lemma C10_drag_over_target_well_formed_witness :
  ∃ b',
    run (handleDragOver (board two_cards) "1" (Some ("doing", false))) two_cards
      = Some (with_board b' two_cards, []) ∧
    dragOverIndex "doing" false (col doing (board two_cards)) = 1%Z ∧
    col doing b' = [sample_item] ∧
    col todo b' = [second_item].
Proof.
  destruct (C10_drag_over_target_well_formed two_cards "1" "doing" false
              todo doing sample_item)
    as (b' & _ & Hr & _ & Hi & Ho & _ & _ & Ha & _).
  - reflexivity.
  - reflexivity.
  - discriminate.
  - reflexivity.
  - exists b'. split; [exact Hr|]. split; [exact (Hi eq_refl)|].
    split; [exact Ho|exact Ha].
Defined.

(** ** Scenarios of the specification *)

(** A card is dragged from "todo" to "doing".  The move marks its
    identity; an UPDATE event that arrives while the marker is set is
    ignored; the store confirms, the positions of the source column are
    written, the timer is armed; once the timer has removed the marker
    the same UPDATE event is applied. *)
Example scenario_pending_write_marker :
  ∃ st1 k1 k2 body st2 st3,
    run (handleDragEnd (board sample_state) "1" (Some "doing")) sample_state
      = Some (st1, [Blocked (UpdateColumn "1" "doing") k1]) ∧
    board st1 = mkBoard [] [sample_item] [] [] ∧
    run (onChange (UPDATE (Some done_row))) st1 = Some (st1, []) ∧
    run (k1 (Resolved None None)) st1
      = Some (st1, [Blocked (UpdatePositions [("1", 0)]) k2]) ∧
    run (k2 (Resolved None None)) st1 = Some (st1, [Timer 1000 body]) ∧
    run body st1 = Some (st2, []) ∧
    localUpdate st2 = ∅ ∧
    run (onChange (UPDATE (Some done_row))) st2 = Some (st3, []) ∧
    board st3 = mkBoard [] [] [toItem done_row] [].
Proof.
  eexists _, _, _, _, _, _.
  split; [reflexivity|]. split; [reflexivity|].
  split; [reflexivity|]. split; [reflexivity|].
  split; [reflexivity|]. split; [reflexivity|].
  split; [reflexivity|]. split; [reflexivity|]. reflexivity.
Qed.

(** Add, edit, move, delete: the life of one card. *)
Example scenario_card_lifecycle :
  ∃ call k1 st1 k2 st2 st3 k3 k4 st4,
    run (handleAdd initialBoard "Write spec" "" [] todo) initialState
      = Some (initialState, [Blocked call k1]) ∧
    run (k1 (Resolved (Some (CardRow.mk "1" "Write spec" None None (Some "todo"))) None))
        initialState = Some (st1, []) ∧
    board st1 = mkBoard [sample_item] [] [] [] ∧
    run (handleEdit todo (KanbanItem.mk "1" "Write the spec" None None)) st1
      = Some (st1, [Blocked (UpdateCard "1" "Write the spec" None None) k2]) ∧
    run (k2 (Resolved None None)) st1 = Some (st2, []) ∧
    board st2 = mkBoard [KanbanItem.mk "1" "Write the spec" None None] [] [] [] ∧
    run (handleDragEnd (board st2) "1" (Some "doing")) st2
      = Some (st3, [Blocked (UpdateColumn "1" "doing") k3]) ∧
    board st3 = mkBoard [] [KanbanItem.mk "1" "Write the spec" None None] [] [] ∧
    run (handleDelete (board st3) doing "1") st3
      = Some (st3, [Blocked (DeleteCard "1") k4]) ∧
    run (k4 (Resolved None None)) st3
      = Some (st4, [Blocked (UpdatePositions [("1", 0)]) (λ _, Return)]) ∧
    board st4 = initialBoard.
Proof.
  eexists _, _, _, _, _, _, _, _, _.
  split; [reflexivity|]. split; [reflexivity|].
  split; [reflexivity|]. split; [reflexivity|].
  split; [reflexivity|]. split; [reflexivity|].
  split; [reflexivity|]. split; [reflexivity|].
  split; [reflexivity|]. split; [reflexivity|].
  reflexivity.
Qed.

(** * Further properties of the component *)

(** ** [ensureUniqueItems] as a repair pass *)

Lemma filterSeen_sublist seen l : (filterSeen seen l).1 `sublist_of` l.
Proof.
  revert seen. induction l as [|j l IH]; intros seen; simpl; [done|].
  case_decide.
  - apply sublist_cons, IH.
  - specialize (IH ({[KanbanItem.id j]} ∪ seen)).
    destruct (filterSeen _ l). simpl in *. by apply sublist_skip.
Qed.

Lemma filterSeen_app seen l1 l2 :
  (filterSeen seen (l1 ++ l2)).1
  = (filterSeen seen l1).1 ++ (filterSeen (seen ∪ list_to_set (ids l1)) l2).1.
Proof.
  revert seen. induction l1 as [|j l1 IH]; intros seen; simpl.
  - by replace (seen ∪ ∅) with seen by set_solver.
  - case_decide.
    + rewrite IH.
      by replace (seen ∪ ({[KanbanItem.id j]} ∪ list_to_set (ids l1)))
        with (seen ∪ list_to_set (ids l1)) by set_solver.
    + specialize (IH ({[KanbanItem.id j]} ∪ seen)).
      destruct (filterSeen _ (l1 ++ l2)) as [k1 s1].
      destruct (filterSeen _ l1) as [k2 s2]. simpl in *. rewrite IH.
      by replace (seen ∪ ({[KanbanItem.id j]} ∪ list_to_set (ids l1)))
        with ({[KanbanItem.id j]} ∪ seen ∪ list_to_set (ids l1)) by set_solver.
Qed.

(** The pass treats the board as one sequence, column after column. *)
Lemma cards_ensureUniqueItems b :
  cards (ensureUniqueItems b) = (filterSeen ∅ (cards b)).1.
Proof.
  unfold cards at 1.
  change (col_todo (ensureUniqueItems b)) with (col todo (ensureUniqueItems b)).
  change (col_doing (ensureUniqueItems b)) with (col doing (ensureUniqueItems b)).
  change (col_done (ensureUniqueItems b)) with (col done (ensureUniqueItems b)).
  change (col_temp (ensureUniqueItems b)) with (col temp (ensureUniqueItems b)).
  rewrite !col_ensureUniqueItems. unfold cards, before. simpl.
  rewrite !filterSeen_app, !app_nil_r.
  replace ((∅ : gset string) ∪ list_to_set (ids (col_todo b))
             ∪ list_to_set (ids (col_doing b)) ∪ list_to_set (ids (col_done b)))
    with (list_to_set (ids (col_todo b ++ col_doing b ++ col_done b)) : gset string)
    by (unfold ids; rewrite !fmap_app, !list_to_set_app_L; set_solver).
  replace ((∅ : gset string) ∪ list_to_set (ids (col_todo b))
             ∪ list_to_set (ids (col_doing b)))
    with (list_to_set (ids (col_todo b ++ col_doing b)) : gset string)
    by (unfold ids; rewrite fmap_app, list_to_set_app_L; set_solver).
  replace ((∅ : gset string) ∪ list_to_set (ids (col_todo b)))
    with (list_to_set (ids (col_todo b)) : gset string) by set_solver.
  done.
Qed.

Lemma find_cons {A} (P : A → Prop) `{∀ x, Decision (P x)} (y : A) l :
  find P (y :: l) = if decide (P y) then Some y else find P l.
Proof.
  unfold find. cbn [list_find]. case_decide; [done|].
  by destruct (list_find P l) as [[??]|].
Qed.

Lemma filter_filterSeen seen l x :
  filter (λ i, KanbanItem.id i = x) (filterSeen seen l).1
  = if decide (x ∈ seen) then []
    else option_list (find (λ i, KanbanItem.id i = x) l).
Proof.
  revert seen. induction l as [|j l IH]; intros seen.
  - simpl. by case_decide.
  - rewrite find_cons. cbn [filterSeen].
    destruct (decide (KanbanItem.id j ∈ seen)) as [Hj|Hj].
    + rewrite IH. case_decide as Hx; [done|].
      by rewrite decide_False by (by intros <-).
    + specialize (IH ({[KanbanItem.id j]} ∪ seen)).
      destruct (filterSeen _ l) as [kept s]. simpl in *.
      destruct (decide (KanbanItem.id j = x)) as [<-|Hne].
      * rewrite filter_cons_True, IH by done.
        rewrite decide_True by set_solver. by rewrite decide_False.
      * rewrite filter_cons_False, IH by done.
        destruct (decide (x ∈ seen)) as [Hx|Hx].
        -- by rewrite decide_True by set_solver.
        -- by rewrite decide_False by set_solver.
Qed.

(** X1.  Whatever the board, the pass yields a board without duplicate
    identities, only ever drops cards (each column of the result is a
    subsequence of the column it came from), and loses no identity. *)
Theorem ensureUniqueItems_repairs b :
  NoDupBoard (ensureUniqueItems b) ∧
  (∀ k, col k (ensureUniqueItems b) `sublist_of` col k b) ∧
  (∀ x, x ∈ all_ids (ensureUniqueItems b) ↔ x ∈ all_ids b).
Proof.
  split; [apply ensureUniqueItems_NoDup|]. split.
  - intros k. rewrite col_ensureUniqueItems. apply filterSeen_sublist.
  - apply ensureUniqueItems_all_ids.
Qed.

(** X2.  The boards the pass leaves alone are exactly the boards
    without duplicate identities, and running it twice is running it
    once. *)
Theorem ensureUniqueItems_fixpoint b :
  (ensureUniqueItems b = b ↔ NoDupBoard b) ∧
  ensureUniqueItems (ensureUniqueItems b) = ensureUniqueItems b.
Proof.
  split.
  - split; [|apply ensureUniqueItems_id].
    intros <-. apply ensureUniqueItems_NoDup.
  - apply ensureUniqueItems_id, ensureUniqueItems_NoDup.
Qed.

(** X3.  Of the cards that share an identity the pass keeps exactly
    one: the first in the enumeration todo, doing, done, temp, top to
    bottom. *)
Theorem ensureUniqueItems_keeps_first b x :
  filter (λ i, KanbanItem.id i = x) (cards (ensureUniqueItems b))
  = option_list (find (λ i, KanbanItem.id i = x) (cards b)).
Proof.
  rewrite cards_ensureUniqueItems, filter_filterSeen.
  by rewrite decide_False by set_solver.
Qed.

(** ** Ingestion of events: further cases *)

(** X4.  A DELETE event never fails and leaves a board that satisfies
    the invariant and does not hold the identity.  On a board that
    satisfied the invariant, every column is the old column without the
    cards of that identity, and an identity that was not on the board
    leaves the board as it was. *)
Theorem delete_event_removes st old :
  ∃ b',
    run (onChange (DELETE (Some old))) st = Some (with_board b' st, []) ∧
    (old ∉ all_ids b') ∧
    NoDupBoard b' ∧
    (NoDupBoard (board st) →
       (∀ k, col k b' = filter (λ item, KanbanItem.id item ≠ old) (col k (board st))) ∧
       (old ∉ all_ids (board st) → b' = board st)).
Proof.
  exists (deleteEventUpdater old (board st)). split.
  { simpl. unfold total. by rewrite rendered_raw. }
  unfold deleteEventUpdater. split.
  { rewrite ensureUniqueItems_all_ids. apply removeEverywhere_absent. }
  split; [apply ensureUniqueItems_NoDup|].
  intros Hnd. rewrite ensureUniqueItems_id by by apply removeEverywhere_NoDup.
  split; [intros k; apply col_removeEverywhere|].
  intros Hx. apply board_eq. intros k. rewrite col_removeEverywhere.
  apply filter_absent. intros ?. apply Hx, elem_of_all_ids. eauto.
Qed.

Lemma delete_event_removes_witness :
  ∃ b',
    run (onChange (DELETE (Some "1"))) two_cards = Some (with_board b' two_cards, []) ∧
    col todo b' = [second_item].
Proof.
  destruct (delete_event_removes two_cards "1") as (b' & Hr & _ & _ & H).
  exists b'. split; [exact Hr|].
  assert (NoDupBoard (board two_cards)) as Hnd by compute_done.
  exact (proj1 (H Hnd) todo).
Defined.

(** X5.  An INSERT event whose column key is a string outside the four
    keys makes the state update throw (the spread of [prev[colKey]],
    which is [undefined]): no new state results.  An UPDATE event with
    such a key does the same, unless its identity is marked, in which
    case it is ignored like any other. *)
Theorem event_with_unknown_column_throws new st :
  as_key (declaredColumn new) = None →
  run (onChange (INSERT (Some new))) st = None ∧
  run (onChange (UPDATE (Some new))) st
    = (if decide (CardRow.id new ∈ localUpdate st) then Some (st, []) else None).
Proof.
  intros Hk. simpl. unfold partial, insertUpdater, updateUpdater, own_key.
  rewrite Hk. simpl. split; [done|]. by case_decide.
Qed.

Lemma event_with_unknown_column_throws_witness :
  run (onChange (INSERT (Some stray_row))) sample_state = None ∧
  run (onChange (UPDATE (Some stray_row))) sample_state = None.
Proof.
  destruct (event_with_unknown_column_throws stray_row sample_state) as [Hi Hu].
  - reflexivity.
  - split; [exact Hi|exact Hu].
Defined.

(** ** Container resolution: cards *)

Lemma is_Some_find_id id (l : list KanbanItem.t) :
  is_Some (find (λ item, KanbanItem.id item = id) l) ↔ id ∈ ids l.
Proof.
  rewrite find_is_Some. unfold ids. rewrite list_elem_of_fmap. naive_solver.
Qed.

Lemma find_entries (b : BoardState) id k pre post :
  (∀ k', k' ∈ pre → id ∉ ids (col k' b)) → id ∈ ids (col k b) →
  find (λ e : ColumnKey * list KanbanItem.t,
          is_Some (find (λ item, KanbanItem.id item = id) e.2))
       ((λ k, (k, col k b)) <$> pre ++ k :: post)
  = Some (k, col k b).
Proof.
  intros Hpre Hk. induction pre as [|k0 pre IH]; simpl.
  - rewrite find_cons. by rewrite decide_True by (by apply is_Some_find_id).
  - rewrite find_cons. rewrite decide_False.
    + apply IH. intros k' ?. apply Hpre. by right.
    + simpl. rewrite is_Some_find_id. apply Hpre. by left.
Qed.

Lemma keys_split k : keys = earlier k ++ k :: drop (S (rank k)) keys.
Proof. by destruct k. Qed.

Lemma findContainer_first b id k :
  in_board id = false → id ∈ ids (col k b) → id ∉ ids (before k b) →
  findContainer b id = Some (key_name k).
Proof.
  intros Hin Hk Hb. unfold findContainer. rewrite Hin.
  unfold entries. rewrite (keys_split k), find_entries; [done| |done].
  intros k' Hk' Hx. apply Hb, elem_of_ids_before. eauto.
Qed.

Lemma findContainer_NoDup b id k :
  NoDupBoard b → in_board id = false → id ∈ ids (col k b) →
  findContainer b id = Some (key_name k).
Proof.
  intros [_ Hacross]%NoDupBoard_alt Hin Hk. apply findContainer_first; [done..|].
  intros (k' & Hk' & Hx)%elem_of_ids_before.
  assert (k' = k) as -> by eauto. by apply earlier_irrefl in Hk'.
Qed.

(** X6.  Resolution of an id that is not a property name of the board:
    the answer is "not found" exactly when no card has the id, and
    otherwise it is the first column, in the order todo, doing, done,
    temp, that holds a card with the id. *)
Theorem findContainer_card_resolution b id :
  in_board id = false →
  (findContainer b id = None ↔ id ∉ all_ids b) ∧
  (∀ k, id ∈ ids (col k b) → id ∉ ids (before k b) →
        findContainer b id = Some (key_name k)).
Proof.
  intros Hin. split; [|intros k; by apply findContainer_first].
  pose proof (findContainer_scan b id Hin) as Hs. split.
  - intros E. by rewrite E in Hs.
  - intros Hx. destruct (findContainer b id) as [c|]; [|done].
    destruct Hs as (k & _ & Hk). exfalso. apply Hx, elem_of_all_ids. eauto.
Qed.

Lemma findContainer_card_resolution_witness :
  findContainer (board two_cards) "2" = Some "todo" ∧
  (findContainer (board two_cards) "3" = None ↔ "3" ∉ all_ids (board two_cards)).
Proof.
  split.
  - refine (proj2 (findContainer_card_resolution (board two_cards) "2" _) todo _ _);
      [reflexivity|compute_done|compute_done].
  - exact (proj1 (findContainer_card_resolution (board two_cards) "3" eq_refl)).
Defined.

(** ** The drag overlay *)

Lemma find_app {A} (P : A → Prop) `{∀ x, Decision (P x)} (l1 l2 : list A) :
  find P (l1 ++ l2) = match find P l1 with Some x => Some x | None => find P l2 end.
Proof.
  induction l1 as [|y l1 IH]; [done|]. simpl. rewrite !find_cons.
  by case_decide.
Qed.

Lemma find_id_None id (l : list KanbanItem.t) :
  id ∉ ids l → find (λ item, KanbanItem.id item = id) l = None.
Proof.
  intros Hx. destruct (find _ l) eqn:Hf; [|done].
  exfalso. apply Hx, is_Some_find_id. by rewrite Hf.
Qed.

Lemma first_column b id :
  id ∈ all_ids b → ∃ k, id ∈ ids (col k b) ∧ id ∉ ids (before k b).
Proof.
  assert (∀ n k, rank k < n → id ∈ ids (col k b) →
            ∃ k0, id ∈ ids (col k0 b) ∧ id ∉ ids (before k0 b)) as Hn.
  { induction n as [|n IH]; intros k Hr Hk; [lia|].
    destruct (decide (id ∈ ids (before k b))) as [Hb|Hb]; [|eauto].
    apply elem_of_ids_before in Hb as (k' & Hk' & Hx).
    apply earlier_rank in Hk'. apply (IH k'); [lia|done]. }
  intros (k & Hk)%elem_of_all_ids. by apply (Hn (S (rank k)) k); [lia|].
Qed.

Lemma find_cards_first b id k :
  id ∉ ids (before k b) →
  find (λ item, KanbanItem.id item = id) (cards b)
  = match find (λ item, KanbanItem.id item = id) (col k b) with
    | Some x => Some x
    | None => find (λ item, KanbanItem.id item = id)
                   (mjoin ((λ k', col k' b) <$> drop (S (rank k)) keys))
    end.
Proof.
  intros Hb.
  assert (∀ k', k' ∈ earlier k → find (λ item, KanbanItem.id item = id) (col k' b) = None)
    as He.
  { intros k' Hk'. apply find_id_None. intros Hx. apply Hb, elem_of_ids_before. eauto. }
  assert (∀ k', k' ∈ earlier k →
            ∀ o, match find (λ item, KanbanItem.id item = id) (col k' b) with
                 | Some x => Some x
                 | None => o
                 end = o) as Hskip by (intros k' Hk' o; by rewrite He).
  unfold cards. rewrite !find_app.
  destruct k; cbn [col rank earlier length drop keys fmap list_fmap mjoin list_join];
    rewrite ?app_nil_r.
  - rewrite ?find_app. repeat destruct (find _ _); done.
  - rewrite (Hskip todo) by (simpl; set_solver).
    rewrite ?find_app. repeat destruct (find _ _); done.
  - rewrite (Hskip todo), (Hskip doing) by (simpl; set_solver).
    rewrite ?find_app. repeat destruct (find _ _); done.
  - rewrite (Hskip todo), (Hskip doing), (Hskip done) by (simpl; set_solver).
    by destruct (find _ _).
Qed.

(** X7.  [findActiveItem] returns the first card with the id in board
    order, and nothing exactly when the id is on no column.  For an id
    that is not a property name of the board, the card lies in the
    container that [findContainer] resolves the id to. *)
Theorem findActiveItem_first b id :
  findActiveItem b id = find (λ item, KanbanItem.id item = id) (cards b) ∧
  (findActiveItem b id = None ↔ id ∉ all_ids b) ∧
  (in_board id = false →
   ∀ c, findContainer b id = Some c →
        ∃ k item, c = key_name k ∧ findActiveItem b id = Some item ∧
                  item ∈ col k b ∧ KanbanItem.id item = id).
Proof.
  assert (findActiveItem b id = find (λ item, KanbanItem.id item = id) (cards b)) as E.
  { unfold findActiveItem, entries, keys, cards. cbn [fmap list_fmap firstFound snd col].
    rewrite !find_app. repeat destruct (find _ _); done. }
  split; [done|]. split.
  { rewrite E, find_None. unfold all_ids, ids. rewrite list_elem_of_fmap. naive_solver. }
  intros Hin c Hc.
  assert (id ∈ all_ids b) as Hon.
  { pose proof (findContainer_scan b id Hin) as Hs. rewrite Hc in Hs.
    destruct Hs as (k0 & _ & ?). apply elem_of_all_ids. eauto. }
  destruct (first_column b id Hon) as (k & Hk & Hb).
  rewrite (findContainer_first b id k) in Hc by done. injection Hc as <-.
  rewrite E, (find_cards_first b id k) by done.
  destruct (find _ (col k b)) as [item|] eqn:Hf.
  - apply find_Some in Hf as [? ?]. by exists k, item.
  - exfalso. apply is_Some_find_id in Hk. rewrite Hf in Hk. by destruct Hk.
Qed.

Lemma findActiveItem_first_witness :
  ∃ k item,
    "todo" = key_name k ∧
    findActiveItem (board two_cards) "2" = Some item ∧
    item ∈ col k (board two_cards) ∧ KanbanItem.id item = "2".
Proof.
  exact (proj2 (proj2 (findActiveItem_first (board two_cards) "2"))
           eq_refl "todo" eq_refl).
Defined.

(** For an id that is a property name of the board the two can
    disagree: a card whose id is a column key is found where it lies,
    while its container resolves to the column of that name.  And an
    empty id never shows in the overlay. *)
Example overlay_and_container_disagree :
  findContainer (board odd_state) "todo" = Some "todo" ∧
  findActiveItem (board odd_state) "todo" = Some column_named_card ∧
  column_named_card ∈ col doing (board odd_state) ∧
  activeItem (board odd_state) (Some "") = None.
Proof. split; [done|]. split; [done|]. split; [by left|done]. Qed.

(** ** Drag-over and drag-end *)

(** What a cross-column drag-over does to the state when the card is in
    its resolved source column. *)
Lemma handleDragOver_moves seen st activeId overId below ka ko item :
  findContainer seen activeId = Some (key_name ka) →
  findContainer seen overId = Some (key_name ko) →
  ka ≠ ko →
  find (λ i, KanbanItem.id i = activeId) (col ka (board st)) = Some item →
  run (handleDragOver seen activeId (Some (overId, below))) st
  = Some (with_board
            (put ko
               (take (Z.to_nat (dragOverIndex overId below (col ko (board st))))
                     (col ko (board st))
                  ++ item
                  :: drop (Z.to_nat (dragOverIndex overId below (col ko (board st))))
                          (col ko (board st)))
               (put ka (filter (λ i, KanbanItem.id i ≠ activeId) (col ka (board st)))
                    (board st)))
            st, []).
Proof.
  intros Ha Ho Hne Hf. unfold handleDragOver. rewrite Ha, Ho.
  rewrite decide_True by (intros ?%key_name_inj; done).
  simpl. rewrite dragOverUpdater_keys. simpl. rewrite Hf.
  rewrite <-fmap_cons, <-fmap_app, <-!raw_put, rendered_raw. done.
Qed.

(** X8.  Drag-over is a pure preview: whatever the event and whatever
    board the handler saw, if it leads to a state at all then only the
    board differs from the state before, and no request or timer is
    left behind. *)
Theorem handleDragOver_is_local seen activeId over st st' new :
  run (handleDragOver seen activeId over) st = Some (st', new) →
  new = [] ∧ localUpdate st' = localUpdate st ∧
  error st' = error st ∧ loading st' = loading st.
Proof.
  unfold handleDragOver. destruct over as [[overId below]|]; [|by intros [= <- <-]].
  destruct (findContainer seen activeId) as [ac|]; [|by intros [= <- <-]].
  destruct (findContainer seen overId) as [oc|]; [|by intros [= <- <-]].
  case_decide; [|by intros [= <- <-]].
  simpl. destruct (dragOverUpdater _ _ _ _ _ _) as [|rb]; [done|].
  destruct (rendered rb) as [b'|]; [|done]. simpl. by intros [= <- <-].
Qed.

Lemma handleDragOver_is_local_witness :
  ∃ st',
    run (handleDragOver (board two_cards) "1" (Some ("doing", false))) two_cards
      = Some (st', []) ∧
    localUpdate st' = localUpdate two_cards ∧ error st' = error two_cards.
Proof.
  eexists. split; [reflexivity|].
  destruct (handleDragOver_is_local (board two_cards) "1" (Some ("doing", false))
              two_cards _ [] eq_refl) as (_ & Hl & He & _).
  split; [exact Hl|exact He].
Defined.

(** After a rendered cross-column drag-over both ids resolve to the
    target column. *)
Lemma preview_resolves st activeId overId below ka ko :
  NoDupBoard (board st) → in_board activeId = false →
  findContainer (board st) activeId = Some (key_name ka) →
  findContainer (board st) overId = Some (key_name ko) →
  ka ≠ ko →
  ∃ b',
    run (handleDragOver (board st) activeId (Some (overId, below))) st
      = Some (with_board b' st, []) ∧
    b' ≠ board st ∧
    NoDupBoard b' ∧
    findContainer b' activeId = Some (key_name ko) ∧
    findContainer b' overId = Some (key_name ko).
Proof.
  intros Hnd Hin Ha Ho Hne.
  pose proof (findContainer_scan (board st) activeId Hin) as Hs. rewrite Ha in Hs.
  destruct Hs as (k & E%key_name_inj & Hk). subst k.
  destruct (proj2 (is_Some_find_id _ _) Hk) as [item Hf].
  pose proof (find_Some _ _ _ Hf) as [Hitem Hid].
  eexists. split; [by apply (handleDragOver_moves _ _ _ _ _ ka ko item)|].
  set (n := Z.to_nat _). set (b' := put ko _ _).
  assert (NoDupBoard b') as Hnd'.
  { subst b'. rewrite <-Hid. apply NoDupBoard_move; [done..|apply take_cons_drop_perm]. }
  assert (∀ x, x = activeId ∨ x ∈ ids (col ko (board st)) → x ∈ ids (col ko b')) as Hko.
  { intros x Hx. subst b'. rewrite col_put. unfold ids.
    rewrite take_cons_drop_perm, fmap_cons, elem_of_cons, Hid. naive_solver. }
  split.
  { intros E. apply (f_equal (col ka)) in E. subst b'.
    rewrite col_put_ne, col_put in E by done.
    rewrite <-E in Hitem. apply list_elem_of_filter in Hitem. naive_solver. }
  split; [done|]. split.
  { apply findContainer_NoDup; [done..|]. apply Hko. by left. }
  destruct (in_board overId) eqn:Hino.
  - unfold findContainer in *. by rewrite Hino in *.
  - pose proof (findContainer_scan (board st) overId Hino) as Hs. rewrite Ho in Hs.
    destruct Hs as (k & E%key_name_inj & Hk'). subst k.
    apply findContainer_NoDup; [done..|]. apply Hko. by right.
Qed.

(** X9.  Drag-over is idempotent once rendered.  On a board that
    satisfies the invariant, with the dragged card's id not a property
    name of the board: after a cross-column drag-over has moved the
    card and the board has been rendered, a further drag-over event for
    the same card over the same target changes nothing, wherever the
    pointer is relative to the target. *)
Theorem handleDragOver_idempotent st activeId overId below below' ka ko :
  NoDupBoard (board st) → in_board activeId = false →
  findContainer (board st) activeId = Some (key_name ka) →
  findContainer (board st) overId = Some (key_name ko) →
  ka ≠ ko →
  ∃ b',
    run (handleDragOver (board st) activeId (Some (overId, below))) st
      = Some (with_board b' st, []) ∧
    b' ≠ board st ∧
    run (handleDragOver b' activeId (Some (overId, below'))) (with_board b' st)
      = Some (with_board b' st, []).
Proof.
  intros Hnd Hin Ha Ho Hne.
  destruct (preview_resolves st activeId overId below ka ko)
    as (b' & Hr & Hchg & _ & Ha' & Ho'); [done..|].
  exists b'. split; [done|]. split; [done|].
  unfold handleDragOver. rewrite Ha', Ho'. by rewrite decide_False by (by intros []).
Qed.

Lemma handleDragOver_idempotent_witness :
  ∃ b',
    run (handleDragOver (board two_cards) "1" (Some ("doing", false))) two_cards
      = Some (with_board b' two_cards, []) ∧
    run (handleDragOver b' "1" (Some ("doing", true))) (with_board b' two_cards)
      = Some (with_board b' two_cards, []).
Proof.
  destruct (handleDragOver_idempotent two_cards "1" "doing" false true todo doing)
    as (b' & H1 & _ & H2).
  - compute_done.
  - reflexivity.
  - reflexivity.
  - reflexivity.
  - discriminate.
  - exists b'. split; [exact H1|exact H2].
Defined.

(** X10.  If the dragged id resolves to a column that does not hold a
    card with that id (a card whose id is a column key, lying in another
    column), a cross-column drag-over puts [undefined] into the target
    column, and the board cannot be rendered. *)
Theorem handleDragOver_absent_card st activeId overId below ka ko :
  findContainer (board st) activeId = Some (key_name ka) →
  findContainer (board st) overId = Some (key_name ko) →
  ka ≠ ko →
  activeId ∉ ids (col ka (board st)) →
  (∃ rb,
     dragOverUpdater activeId overId below (key_name ka) (key_name ko) (board st)
       = Ok rb ∧
     None ∈ col ko rb) ∧
  run (handleDragOver (board st) activeId (Some (overId, below))) st = None.
Proof.
  intros Ha Ho Hne Hx.
  pose proof (find_id_None _ _ Hx) as Hf.
  assert (∃ rb,
     dragOverUpdater activeId overId below (key_name ka) (key_name ko) (board st)
       = Ok rb ∧ None ∈ col ko rb) as (rb & Hu & Hn).
  { rewrite dragOverUpdater_keys. simpl. rewrite Hf. eexists. split; [done|].
    rewrite col_put, elem_of_app, elem_of_cons. auto. }
  split; [by exists rb|].
  unfold handleDragOver. rewrite Ha, Ho.
  rewrite decide_True by (intros ?%key_name_inj; done).
  simpl. rewrite Hu. simpl.
  destruct (rendered rb) as [b'|] eqn:Hr; [|done].
  exfalso. apply rendered_Some with (k := ko) in Hr. rewrite Hr in Hn.
  apply list_elem_of_fmap in Hn as (? & ? & ?). done.
Qed.

Lemma handleDragOver_absent_card_witness :
  run (handleDragOver (board odd_state) "todo" (Some ("done", false))) odd_state = None.
Proof.
  refine (proj2 (handleDragOver_absent_card odd_state "todo" "done" false todo done
                   _ _ _ _)).
  - reflexivity.
  - reflexivity.
  - discriminate.
  - compute_done.
Defined.

(** What a drag-end does when both ids resolve to the column [k]. *)
Lemma handleDragEnd_same seen st activeId overId k :
  findContainer seen activeId = Some (key_name k) →
  findContainer seen overId = Some (key_name k) →
  run (handleDragEnd seen activeId (Some overId)) st
  = if decide (findIndex (λ item, KanbanItem.id item = activeId) (col k seen)
               ≠ findIndex (λ item, KanbanItem.id item = overId) (col k seen))
    then
      b ← rendered
             (reorderUpdater k
                (findIndex (λ item, KanbanItem.id item = activeId) (col k seen))
                (findIndex (λ item, KanbanItem.id item = overId) (col k seen))
                (board st));
      Some (with_board b st, persistSuspended seen k)
    else Some (st, []).
Proof.
  intros Ha Ho. unfold handleDragEnd. rewrite Ha, Ho.
  rewrite decide_True by done. rewrite own_key_name. cbv zeta.
  case_decide; [|done]. simpl.
  destruct (rendered _) as [b|]; [|done]. simpl.
  rewrite run_persistColumnPositions. simpl. by rewrite app_nil_r.
Qed.



(** The reorder of the witness does change the order on the board. *)
Example reorder_changes_board :
  ∃ st' new,
    run (handleDragEnd (board two_cards) "1" (Some "2")) two_cards = Some (st', new) ∧
    col todo (board st') = [second_item; sample_item].
Proof. eexists _, _. split; [reflexivity|]. reflexivity. Qed.



(** ** Handlers run to their end *)

(** X13.  Whatever the store answers, [updateCardColumnAndPositions],
    run with no other handler in between, comes to an end after at most
    three resumptions (after the column write, after the position
    passes of the two columns, and the timer that removes the marker),
    never touches the board, and leaves the identity unmarked, even if
    it was marked before the call.  The error message is set exactly
    when the column write fails. *)
Theorem updateCardColumnAndPositions_unmarks (reply : Store) seen cardId newCol oldCol st :
  ∃ st',
    settle 3 reply (updateCardColumnAndPositions seen cardId newCol oldCol) st
      = Some st' ∧
    board st' = board st ∧
    localUpdate st' = localUpdate st ∖ {[cardId]} ∧
    error st' = match reply _ (UpdateColumn cardId newCol) with
                | Resolved _ (Some message) => Some ("Failed to move task: " +:+ message)
                | Resolved _ None => error st
                | Rejected => Some "Failed to move task. Please check your connection."
                end.
Proof.
  unfold settle, updateCardColumnAndPositions. cbn [run mbind option_bind drain app].
  destruct (reply unit (UpdateColumn cardId newCol)) as [data [message|]|].
  - eexists. split; [reflexivity|]. simpl. split; [done|]. split; [set_solver|done].
  - destruct (positionWrites seen newCol ++ positionWrites seen oldCol);
      (eexists; split; [reflexivity|]; simpl; split; [done|]; split; [set_solver|done]).
  - eexists. split; [reflexivity|]. simpl. split; [done|]. split; [set_solver|done].
Qed.

(** X14.  For a store whose column rows carry only the four column
    keys (the type of [SelectColumns]; a row with another key is
    outside the model, see [buildNext]): whatever such a store answers
    to the two queries, the initial load comes to an end with the
    loading flag cleared and the markers untouched, in one of two ways:
    the error is cleared and the board is one that satisfies the
    invariant, or the load error is shown and the board is the one from
    before. *)
Theorem fetchData_outcomes (reply : Store) st :
  ∃ st',
    settle 2 reply fetchData st = Some st' ∧
    loading st' = false ∧
    localUpdate st' = localUpdate st ∧
    ((error st' = None ∧ NoDupBoard (board st')) ∨
     (error st' = Some "Failed to load board data. Please refresh the page." ∧
      board st' = board st)).
Proof.
  unfold settle, fetchData. cbn [run mbind option_bind drain app].
  destruct (reply _ SelectColumns) as [columns e1|].
  - cbn [run mbind option_bind drain app].
    destruct (reply _ SelectCards) as [cards e2|].
    + unfold fetchData_loaded.
      destruct (buildNext _ _) as [|next].
      * eexists. split; [reflexivity|]. simpl. auto.
      * simpl. rewrite rendered_raw. eexists. split; [reflexivity|]. simpl.
        split; [done|]. split; [done|]. left. split; [done|].
        apply ensureUniqueItems_NoDup.
    + eexists. split; [reflexivity|]. simpl. auto.
  - eexists. split; [reflexivity|]. simpl. auto.
Qed.

(** X15.  The [error] field of the two query replies is never read.  A
    store that resolves both queries with an error object and no data
    gives an empty board with no error shown; only a rejected request
    (or a throw while the board is built) shows the load error. *)
Theorem fetchData_ignores_query_errors (reply : Store) e1 e2 st :
  reply _ SelectColumns = Resolved None e1 →
  reply _ SelectCards = Resolved None e2 →
  settle 2 reply fetchData st
  = Some (mkState initialBoard (localUpdate st) None false).
Proof.
  intros H1 H2. unfold settle, fetchData. cbn [run mbind option_bind drain app].
  rewrite H1. cbn [run mbind option_bind drain app]. rewrite H2. reflexivity.
Qed.

Lemma fetchData_ignores_query_errors_witness :
  settle 2 failing_store fetchData sample_state
  = Some (mkState initialBoard ∅ None false) ∧
  (∃ st', settle 2 offline_store fetchData sample_state = Some st' ∧
          board st' = board sample_state ∧
          error st' = Some "Failed to load board data. Please refresh the page.").
Proof.
  split.
  - exact (fetchData_ignores_query_errors failing_store _ _ sample_state
             eq_refl eq_refl).
  - eexists. split; [reflexivity|]. split; reflexivity.
Defined.

(** ** Edit, delete and add *)

Lemma mergeItem_updated i updated : mergeItem i updated = updated.
Proof. by destruct updated. Qed.

(** X16.  A successful edit, on a board that satisfies the invariant,
    rewrites the card in place: the identities of every column and
    their order are unchanged, the other columns are unchanged, every
    card of the column with the edited identity now is the updated
    record and every other card of the column is as before.  If the
    column does not hold the identity, the board is unchanged. *)
Theorem handleEdit_in_place c updated st :
  ∃ (call : Remote CardRow.t) (k : Reply CardRow.t → Task),
    run (handleEdit c updated) st = Some (with_error None st, [Blocked call k]) ∧
    ∀ st1 data, NoDupBoard (board st1) →
      ∃ b',
        run (k (Resolved data None)) st1 = Some (with_board b' st1, []) ∧
        (∀ k', ids (col k' b') = ids (col k' (board st1))) ∧
        (∀ k', k' ≠ c → col k' b' = col k' (board st1)) ∧
        col c b' = (λ i, if decide (KanbanItem.id i = KanbanItem.id updated)
                         then updated else i) <$> col c (board st1) ∧
        (KanbanItem.id updated ∉ ids (col c (board st1)) → b' = board st1).
Proof.
  eexists _, _. split; [reflexivity|]. intros st1 data Hnd.
  set (repl := λ i, if decide (KanbanItem.id i = KanbanItem.id updated)
                    then updated else i).
  assert (∀ l, ids (repl <$> l) = ids l) as Hids.
  { intros l. unfold ids. rewrite <-list_fmap_compose. apply list_fmap_ext.
    intros ? i _. simpl. unfold repl. by case_decide. }
  set (b' := put c (repl <$> col c (board st1)) (board st1)).
  assert (∀ k', ids (col k' b') = ids (col k' (board st1))) as Hcols.
  { intros k'. subst b'. destruct (decide (c = k')) as [<-|?].
    - by rewrite col_put.
    - by rewrite col_put_ne. }
  assert (editUpdater c updated (board st1) = b') as Hu.
  { unfold editUpdater.
    rewrite (list_fmap_ext _ repl (col c (board st1)))
      by (intros ? i _; unfold repl; case_decide; [apply mergeItem_updated|done]).
    apply ensureUniqueItems_id. revert Hnd. apply NoDupBoard_sub.
    intros k'. fold b'. by rewrite Hcols. }
  exists b'. split.
  { cbv beta iota. rewrite run_total. by rewrite Hu. }
  split; [done|]. split; [intros k' ?; subst b'; by rewrite col_put_ne|].
  split; [subst b'; by rewrite col_put|].
  intros Hx. apply board_eq. intros k'. subst b'.
  destruct (decide (c = k')) as [<-|?]; [|by rewrite col_put_ne].
  rewrite col_put. rewrite <-(list_fmap_id (col c (board st1))) at 2.
  apply list_fmap_ext. intros ? i Hi. unfold repl. case_decide as E; [|done].
  exfalso. apply Hx. rewrite <-E. apply list_elem_of_fmap.
  exists i. split; [done|]. by eapply list_elem_of_lookup_2.
Qed.

Lemma handleEdit_in_place_witness :
  ∃ (call : Remote CardRow.t) (k : Reply CardRow.t → Task) b',
    run (handleEdit todo (KanbanItem.mk "2" "Reviewed" None None)) two_cards
      = Some (with_error None two_cards, [Blocked call k]) ∧
    run (k (Resolved None None)) two_cards = Some (with_board b' two_cards, []) ∧
    col todo b' = [sample_item; KanbanItem.mk "2" "Reviewed" None None].
Proof.
  destruct (handleEdit_in_place todo (KanbanItem.mk "2" "Reviewed" None None) two_cards)
    as (call & k & Hr & H).
  destruct (H two_cards None) as (b' & Hr' & _ & _ & Hc & _); [compute_done|].
  exists call, k, b'. split; [exact Hr|]. split; [exact Hr'|exact Hc].
Defined.



(** Prepending a card that already stands at the head of its column. *)
Lemma ensureUniqueItems_prepend_again b k item :
  NoDupBoard b → KanbanItem.id item ∉ all_ids b →
  ensureUniqueItems (put k (item :: col k (put k (item :: col k b) b))
                         (put k (item :: col k b) b))
  = put k (item :: col k b) b.
Proof.
  intros Hnd Hx.
  set (t := put k (item :: col k b) b).
  assert (NoDupBoard t) as Ht.
  { subst t. by apply NoDupBoard_add_fresh with item. }
  assert (∀ k', KanbanItem.id item ∉ ids (col k' b)) as Hk.
  { intros k' ?. apply Hx, elem_of_all_ids. eauto. }
  apply board_eq. intros k'. rewrite ensureUniqueItems_prepend by done.
  destruct (decide (k' = k)) as [->|Hne].
  - rewrite decide_False.
    + subst t. rewrite col_put. rewrite filter_cons_False by naive_solver.
      by rewrite filter_absent.
    + intros (k0 & Hk0 & Hin)%elem_of_ids_before. subst t.
      rewrite col_put_ne in Hin by (intros ->; by apply earlier_irrefl in Hk0).
      by apply (Hk k0).
  - subst t. rewrite col_put_ne by done.
    case_decide; [|done]. by apply filter_absent.
Qed.

(** X18.  The confirmation of an add and the INSERT event that echoes
    it commute.  For a record whose identity is not yet on a board that
    satisfies the invariant, and whose column is the one the card was
    added to: whichever of the two arrives first prepends the card to
    the column, and the other then leaves the board as it is. *)
Theorem add_and_echo_commute seen newTitle newDesc hrefs newColumn data st :
  NoDupBoard (board st) →
  CardRow.id data ∉ all_ids (board st) →
  declaredColumn data = key_name newColumn →
  let target := put newColumn (toItem data :: col newColumn (board st)) (board st) in
  ∃ (call : Remote CardRow.t) (k : Reply CardRow.t → Task),
    run (handleAdd seen newTitle newDesc hrefs newColumn) st
      = Some (st, [Blocked call k]) ∧
    run (k (Resolved (Some data) None)) st
      = Some (with_board target st, persistSuspended seen newColumn) ∧
    run (onChange (INSERT (Some data))) (with_board target st)
      = Some (with_board target st, []) ∧
    run (onChange (INSERT (Some data))) st = Some (with_board target st, []) ∧
    run (k (Resolved (Some data) None)) (with_board target st)
      = Some (with_board target st, persistSuspended seen newColumn).
Proof.
  intros Hnd Hx Hcol target.
  assert (NoDupBoard target) as Ht.
  { subst target. by apply NoDupBoard_add_fresh with (toItem data). }
  assert (addUpdater newColumn (toItem data) (board st) = target) as Hadd.
  { unfold addUpdater. by apply ensureUniqueItems_id. }
  assert (addUpdater newColumn (toItem data) target = target) as Hadd'.
  { unfold addUpdater. subst target. by apply ensureUniqueItems_prepend_again. }
  assert (∀ b, insertUpdater data b = Ok (addUpdater newColumn (toItem data) b)) as Hins.
  { intros b. unfold insertUpdater. by rewrite Hcol, own_key_name. }
  eexists _, _. split; [reflexivity|].
  assert (∀ s, run (SetBoard (total (addUpdater newColumn (toItem data)))
                        (Fork (persistColumnPositions seen (key_name newColumn) Return)
                              Return)) s
                 = Some (with_board (addUpdater newColumn (toItem data) (board s)) s,
                         persistSuspended seen newColumn)) as Hrun.
  { intros s. rewrite run_total. cbn [run].
    rewrite run_persistColumnPositions. simpl. by rewrite app_nil_r. }
  split.
  { cbv beta iota. by rewrite Hrun, Hadd. }
  split.
  { cbn [onChange]. rewrite (run_partial _ _ _ target); [by destruct st|]. cbn [board with_board]. by rewrite Hins, Hadd'. }
  split.
  { cbn [onChange]. rewrite (run_partial _ _ _ target); [by destruct st|]. by rewrite Hins, Hadd. }
  cbv beta iota. rewrite Hrun. cbn [board with_board]. rewrite Hadd'. by destruct st.
Qed.

Lemma add_and_echo_commute_witness :
  ∃ (call : Remote CardRow.t) (k : Reply CardRow.t → Task),
    run (handleAdd (board two_cards) "Write spec" "" [] doing) two_cards
      = Some (two_cards, [Blocked call k]) ∧
    run (onChange (INSERT (Some sample_row))) two_cards
      = Some (with_board (mkBoard [sample_item; second_item] [toItem sample_row] [] [])
                         two_cards, []) ∧
    run (k (Resolved (Some sample_row) None))
        (with_board (mkBoard [sample_item; second_item] [toItem sample_row] [] [])
                    two_cards)
      = Some (with_board (mkBoard [sample_item; second_item] [toItem sample_row] [] [])
                         two_cards, persistSuspended (board two_cards) doing).
Proof.
  destruct (add_and_echo_commute (board two_cards) "Write spec" "" [] doing
              sample_row two_cards) as (call & k & H1 & _ & _ & H4 & H5);
    [compute_done|compute_done|reflexivity|].
  exists call, k. split; [exact H1|]. split; [exact H4|exact H5].
Defined.

(** ** The links field of the forms *)

Lemma text_bytes s : text (bytes s) = s.
Proof. apply String.string_of_list_ascii_of_string. Qed.

Lemma bytes_text l : bytes (text l) = l.
Proof. apply String.list_ascii_of_string_of_list_ascii. Qed.

Lemma bytes_app s1 s2 : bytes (s1 +:+ s2) = bytes s1 ++ bytes s2.
Proof.
  unfold bytes. induction s1 as [|a s1 IH]; [done|]. simpl. by rewrite IH.
Qed.

Lemma text_empty l : text l = "" ↔ l = [].
Proof.
  split; [|by intros ->]. intros E. by rewrite <-(bytes_text l), E.
Qed.

Lemma strip_stop back s : starts back s = false → strip back s = s.
Proof.
  destruct s as [|a [|b [|c s3]]]; simpl; [done|..].
  - by destruct (isWhite [a]).
  - destruct (isWhite [a]); [done|]. by destruct (isWhite (inOrder back [a; b])).
  - destruct (isWhite [a]); [done|].
    destruct (isWhite (inOrder back [a; b])); [done|].
    by destruct (isWhite (inOrder back [a; b; c])).
Qed.

Lemma strip_ind back (P : list ascii → list ascii → Prop) :
  (∀ s, starts back s = false → P s s) →
  (∀ w s, P s (strip back s) → P (w ++ s) (strip back s)) →
  ∀ s, P s (strip back s).
Proof.
  intros Hstop Hstep s.
  assert (∀ n s, length s < n → P s (strip back s)) as H; [|apply (H (S (length s))); lia].
  clear s. induction n as [|n IH]; intros s Hn; [lia|].
  destruct (starts back s) eqn:Hs.
  2:{ rewrite strip_stop by done. by apply Hstop. }
  destruct s as [|a s1]; [done|]. simpl in Hn, Hs |- *.
  destruct (isWhite [a]).
  { apply (Hstep [a]), IH. lia. }
  destruct s1 as [|b s2]; [done|]. simpl in Hn, Hs.
  destruct (isWhite (inOrder back [a; b])).
  { apply (Hstep [a; b]), IH. lia. }
  destruct s2 as [|c s3]; [done|]. simpl in Hn, Hs.
  destruct (isWhite (inOrder back [a; b; c])); [|done].
  apply (Hstep [a; b; c]), IH. lia.
Qed.

Lemma strip_suffix back s : strip back s `suffix_of` s.
Proof.
  apply (strip_ind back (λ s r, r `suffix_of` s)); [done|].
  intros w s' H. by apply suffix_app_r.
Qed.

Lemma strip_result back s : starts back (strip back s) = false.
Proof. by apply (strip_ind back (λ _ r, starts back r = false)). Qed.

Lemma starts_prefix back u t :
  u `prefix_of` t → starts back t = false → starts back u = false.
Proof.
  intros [k ->]. destruct u as [|a [|b [|c u3]]]; simpl; [done|..].
  - destruct (isWhite [a]); [done|]. done.
  - destruct (isWhite [a]); [done|]. simpl.
    destruct (isWhite (inOrder back [a; b])); [done|]. done.
  - done.
Qed.

Lemma trimBytes_sublist s : trimBytes s `sublist_of` s.
Proof.
  unfold trimBytes.
  destruct (strip_suffix true (reverse (strip false s))) as [k Hk].
  destruct (strip_suffix false s) as [k' Hk'].
  rewrite Hk' at 2. apply sublist_inserts_l.
  rewrite <-(reverse_involutive (strip false s)), Hk at 2.
  rewrite reverse_app. by apply sublist_inserts_r.
Qed.

Lemma trimBytes_idemp s : trimBytes (trimBytes s) = trimBytes s.
Proof.
  unfold trimBytes.
  set (t := strip false s). set (r := strip true (reverse t)).
  assert (strip false (reverse r) = reverse r) as ->.
  { apply strip_stop, starts_prefix with t; [|apply strip_result].
    destruct (strip_suffix true (reverse t)) as [k Hk]. fold r in Hk.
    exists (reverse k). by rewrite <-reverse_app, <-Hk, reverse_involutive. }
  rewrite reverse_involutive. f_equal. apply strip_stop, strip_result.
Qed.

Lemma trimBytes_space s : trimBytes (" "%char :: s) = trimBytes s.
Proof. done. Qed.

Lemma trim_idemp s : trim (trim s) = trim s.
Proof. unfold trim. by rewrite bytes_text, trimBytes_idemp. Qed.

Lemma splitBytes_cons sep a l :
  a ≠ sep →
  ∃ piece rest, splitBytes sep l = piece :: rest ∧
                splitBytes sep (a :: l) = (a :: piece) :: rest.
Proof.
  intros Ha. simpl. rewrite decide_False by done.
  assert (splitBytes sep l ≠ []) as Hne.
  { destruct l as [|b l]; [done|]. simpl. case_decide; [done|]. by case_match. }
  destruct (splitBytes sep l) as [|piece rest]; [done|]. eauto.
Qed.

Lemma splitBytes_no_sep sep l p : p ∈ splitBytes sep l → sep ∉ p.
Proof.
  revert p. induction l as [|a l IH]; intros p.
  { simpl. intros ->%list_elem_of_singleton. apply not_elem_of_nil. }
  destruct (decide (a = sep)) as [->|Ha].
  { simpl. rewrite decide_True by done.
    intros [->|Hp]%elem_of_cons; [apply not_elem_of_nil|by apply IH]. }
  destruct (splitBytes_cons sep a l Ha) as (piece & rest & E & ->).
  rewrite E in IH.
  intros [->|Hp]%elem_of_cons.
  - rewrite not_elem_of_cons. split; [done|]. apply IH. left.
  - apply IH. by right.
Qed.

Lemma splitBytes_app sep p q :
  sep ∉ p → splitBytes sep (p ++ sep :: q) = p :: splitBytes sep q.
Proof.
  induction p as [|a p IH]; intros Hp.
  { simpl. by rewrite decide_True. }
  apply not_elem_of_cons in Hp as [Ha Hp]. simpl.
  rewrite decide_False by done. by rewrite IH.
Qed.

Lemma splitBytes_single sep p : sep ∉ p → splitBytes sep p = [p].
Proof.
  induction p as [|a p IH]; intros Hp; [done|].
  apply not_elem_of_cons in Hp as [Ha Hp]. simpl.
  rewrite decide_False by done. by rewrite IH.
Qed.

Lemma trim_split_space l :
  trimBytes <$> splitBytes "," (" "%char :: l) = trimBytes <$> splitBytes "," l.
Proof.
  destruct (splitBytes_cons "," " " l) as (piece & rest & -> & ->); [done|].
  done.
Qed.

Lemma bytes_join h h' rest :
  bytes (join ", " (h :: h' :: rest))
  = bytes h ++ ","%char :: " "%char :: bytes (join ", " (h' :: rest)).
Proof. cbn [join]. by rewrite !bytes_app. Qed.

Lemma pieces_join h hs :
  Forall (λ h, ("," : ascii) ∉ bytes h) (h :: hs) →
  trimBytes <$> splitBytes "," (bytes (join ", " (h :: hs)))
  = (λ h, trimBytes (bytes h)) <$> (h :: hs).
Proof.
  revert h. induction hs as [|h' hs IH]; intros h Hc.
  { apply Forall_cons in Hc as [Hh _]. cbn [join]. by rewrite splitBytes_single. }
  apply Forall_cons in Hc as [Hh Hc].
  rewrite bytes_join, splitBytes_app by done.
  rewrite fmap_cons, trim_split_space, IH by done. done.
Qed.

Lemma hrefsOf_clean s : Forall clean (hrefsOf s).
Proof.
  apply Forall_forall. intros h (Hne & Hin)%list_elem_of_filter.
  apply list_elem_of_fmap in Hin as (p & -> & Hp).
  apply list_elem_of_fmap in Hp as (l & -> & Hl).
  split; [done|]. split; [|apply trim_idemp].
  unfold trim. rewrite !bytes_text. intros Hc.
  apply (splitBytes_no_sep _ _ _ Hl).
  exact (elem_of_sublist _ _ _ Hc (trimBytes_sublist l)).
Qed.

Lemma hrefsOf_join hs : Forall clean hs → hrefsOf (join ", " hs) = hs.
Proof.
  intros Hc. destruct hs as [|h hs]; [done|].
  unfold hrefsOf, split. rewrite <-list_fmap_compose.
  assert ((trim ∘ text) <$> splitBytes "," (bytes (join ", " (h :: hs)))
          = h :: hs) as ->.
  { transitivity (text <$> (trimBytes <$> splitBytes "," (bytes (join ", " (h :: hs))))).
    { rewrite <-list_fmap_compose. apply list_fmap_ext. intros _ l _.
      unfold trim. simpl. by rewrite bytes_text. }
    rewrite pieces_join by (eapply Forall_impl; [exact Hc|]; by intros ? (_ & ? & _)).
    rewrite <-list_fmap_compose. rewrite <-(list_fmap_id (h :: hs)) at 2.
    apply Forall_fmap_ext_1. eapply Forall_impl; [exact Hc|].
    by intros ? (_ & _ & ?). }
  apply filter_all. intros x Hx.
  by destruct (proj1 (Forall_forall _ _) Hc x Hx) as (? & _).
Qed.

Lemma labelled_hrefs (g : nat → string) hs :
  LinkItem.href <$> imap (λ i h, LinkItem.mk (g i) h) hs = hs.
Proof.
  revert g. induction hs as [|h hs IH]; intros g; [done|].
  rewrite imap_cons, fmap_cons. f_equal. apply (IH (g ∘ S)).
Qed.

Lemma labelled_labels (g : nat → string) hs :
  LinkItem.label <$> imap (λ i h, LinkItem.mk (g i) h) hs
  = g <$> seq 0 (length hs).
Proof.
  revert g. induction hs as [|h hs IH]; intros g; [done|].
  rewrite imap_cons, fmap_cons. simpl. f_equal.
  rewrite <-fmap_S_seq, <-list_fmap_compose. apply (IH (g ∘ S)).
Qed.

Lemma labelled_again (g : nat → string) ls :
  LinkItem.label <$> ls = g <$> seq 0 (length ls) →
  imap (λ i h, LinkItem.mk (g i) h) (LinkItem.href <$> ls) = ls.
Proof.
  revert g. induction ls as [|[l h] ls IH]; intros g; [done|].
  simpl. rewrite <-fmap_S_seq, <-list_fmap_compose.
  intros [= -> Hl]. f_equal. by apply (IH (g ∘ S)).
Qed.

(** X19.  The links that the add form and the edit form make of their
    links field, whatever was typed: every target is non-empty, free of
    commas and of white space at either end; the labels are [Link 1],
    [Link 2], ... in order; and the field that the edit form would show
    for these links parses to the same links again. *)
Theorem parseLinks_normal s :
  Forall (λ l, clean (LinkItem.href l)) (parseLinks s) ∧
  LinkItem.label <$> parseLinks s
    = (λ i, "Link " +:+ pretty (S i)) <$> seq 0 (length (parseLinks s)) ∧
  parseLinks (join ", " (LinkItem.href <$> parseLinks s)) = parseLinks s.
Proof.
  unfold parseLinks, labelled.
  rewrite labelled_hrefs, labelled_labels, length_imap.
  split; [|split; [done|]].
  - apply (Forall_fmap LinkItem.href clean). rewrite labelled_hrefs. apply hrefsOf_clean.
  - by rewrite hrefsOf_join by apply hrefsOf_clean.
Qed.

(** X20.  Joining link targets with [", "], as the edit form does to
    fill its links field, and parsing the field back gives the same
    targets exactly when each of them is non-empty, holds no comma and
    neither starts nor ends with white space. *)
Theorem links_field_round_trip hs :
  hrefsOf (join ", " hs) = hs ↔ Forall clean hs.
Proof.
  split; [|apply hrefsOf_join].
  intros <-. apply hrefsOf_clean.
Qed.

Example comma_splits_a_target :
  hrefsOf (join ", " ["https://a.example/?q=1,2"; " b.example"])
  = ["https://a.example/?q=1"; "2"; "b.example"].
Proof. vm_compute. reflexivity. Qed.

(** X21.  Saving the edit form of a card without touching its fields
    hands the card back unchanged exactly when its description is not
    the empty string and its links, if it has any, are a non-empty list
    of clean targets labelled [Link 1], [Link 2], ... in order; any
    other label is replaced, an empty description and an empty list of
    links are dropped. *)
Theorem untouched_save item :
  handleSave item (initialTitle item) (initialDesc item) (initialLinks item) = item
  ↔ KanbanItem.description item ≠ Some "" ∧
    match KanbanItem.links item with
    | None => True
    | Some ls =>
        ls ≠ [] ∧
        Forall (λ l, clean (LinkItem.href l)) ls ∧
        LinkItem.label <$> ls = linkLabel <$> seq 0 (length ls)
    end.
Proof.
  destruct item as [id title desc links].
  unfold handleSave, initialTitle, initialDesc, initialLinks. simpl.
  set (d' := if decide (_ = "") then None else _).
  set (l' := match parseLinks _ with [] => None | _ => _ end).
  assert (d' = desc ↔ desc ≠ Some "") as Hd.
  { subst d'. destruct desc as [d|]; [|by rewrite decide_True].
    case_decide; naive_solver. }
  assert (l' = links ↔
          match links with
          | None => True
          | Some ls =>
              ls ≠ [] ∧ Forall (λ l, clean (LinkItem.href l)) ls ∧
              LinkItem.label <$> ls = linkLabel <$> seq 0 (length ls)
          end) as Hl.
  { subst l'. destruct links as [ls|]; [|done]. simpl.
    set (hs := LinkItem.href <$> ls). split.
    - intros E.
      assert (parseLinks (join ", " hs) = ls ∧ ls ≠ []) as [E' Hne].
      { destruct (parseLinks (join ", " hs)); [done|]. by injection E as <-. }
      split; [done|]. unfold parseLinks, labelled in E'.
      assert (hrefsOf (join ", " hs) = hs) as Hh.
      { subst hs. rewrite <-E' at 2. by rewrite labelled_hrefs. }
      split.
      + apply (Forall_fmap LinkItem.href clean). fold hs. rewrite <-Hh. apply hrefsOf_clean.
      + rewrite <-E' at 1. rewrite labelled_labels, Hh. subst hs.
        by rewrite length_fmap.
    - intros (Hne & Hc & Hlab).
      unfold parseLinks, labelled. rewrite hrefsOf_join by by apply (Forall_fmap LinkItem.href clean).
      subst hs. rewrite labelled_again by done. by destruct ls. }
  split.
  - intros [= E1 E2]. split; [by apply Hd|by apply Hl].
  - intros [H1 H2]. f_equal; [by apply Hd|by apply Hl].
Qed.

Example untouched_save_relabels :
  handleSave noted_item (initialTitle noted_item) (initialDesc noted_item)
             (initialLinks noted_item)
  = KanbanItem.mk "3" "Read" None
      (Some [LinkItem.mk "Link 1" "https://a.example";
             LinkItem.mk "Link 2" "b.example"]).
Proof. vm_compute. reflexivity. Qed.
